(** * Query caching and resilience layer

    A shallow embedding of [src/utils/cache.py] ([LRUCache], [QueryCache])
    and [src/utils/retry.py] ([exponential_backoff],
    [retry_with_exponential_backoff], [CircuitBreaker]), followed by the
    properties of the specification that concern them.

    Conventions of the embedding.
    - A Python [str] is a [string]; each character stands for the code point
      of the same number (code points 0..255).
    - A Python [int] is a [Z].  A Python [float] used as a duration or as a
      [time.time()] reading is an exact rational [Q]: rounding and overflow
      of floating-point arithmetic are not part of the model.
    - A [datetime] is a [Z], the number of microseconds since the epoch.
    - A value of type [Optional[Any]] is an [option]; [None] is Python's
      [None].
    - Calls to the logger have no influence on control flow or state and
      are left out. *)

From Stdlib Require Import List String Ascii Bool ZArith NArith QArith Lia.
From Stdlib Require Import Permutation Sorted Qminmax Qpower DecimalString.
From Stdlib Require Import OrderedTypeEx.
Import ListNotations.

Set Implicit Arguments.

(** ** collections.OrderedDict

    An insertion-ordered dictionary with [str] keys: an association list
    whose keys are pairwise distinct, oldest binding first. *)
Module OrderedDict.
Section Dict.
Context {A : Type}.

Definition t := list (string * A).

Definition keys (d : t) : list string := map fst d.

(** [len(d)] *)
Definition len (d : t) : Z := Z.of_nat (List.length d).

(** [key in d] *)
Fixpoint contains (key : string) (d : t) : bool :=
  match d with
  | [] => false
  | (k, _) :: d' => if String.eqb key k then true else contains key d'
  end.

(** [d[key]], for a key that is present *)
Fixpoint getitem (key : string) (d : t) : option A :=
  match d with
  | [] => None
  | (k, a) :: d' => if String.eqb key k then Some a else getitem key d'
  end.

(** [del d[key]] *)
Fixpoint delitem (key : string) (d : t) : t :=
  match d with
  | [] => []
  | (k, a) :: d' => if String.eqb key k then d' else (k, a) :: delitem key d'
  end.

(** [d[key] = a]: a present key keeps its position, a new key goes last *)
Fixpoint setitem (key : string) (a : A) (d : t) : t :=
  match d with
  | [] => [(key, a)]
  | (k, b) :: d' =>
      if String.eqb key k then (k, a) :: d' else (k, b) :: setitem key a d'
  end.

(** [d.move_to_end(key)], for a key that is present *)
Definition move_to_end (key : string) (d : t) : t :=
  match getitem key d with
  | Some a => delitem key d ++ [(key, a)]
  | None => d
  end.

(** [d.popitem(last=False)], for a non-empty dictionary *)
Definition popitem_first (d : t) : option ((string * A) * t) :=
  match d with
  | [] => None
  | b :: d' => Some (b, d')
  end.

(** The representation invariant: no key is bound twice. *)
Definition wf (d : t) : Prop := NoDup (keys d).
End Dict.
Arguments t : clear implicits.
End OrderedDict.

(** ** CacheEntry *)
Module CacheEntry.
Section Entry.
Context {V : Type}.

(** Modelled from the spec: the class [CacheEntry] of
    [src/models/schemas.py] is not part of the sources at hand.  Its
    fields are those of the data model of the specification. *)
Record t := mk {
  key : string;
  value : option V;
  created_at : Z;
  accessed_at : Z;
  access_count : Z;
  ttl : Z
}.

(** Modelled from the spec: the constructor call
    [CacheEntry(key=..., value=..., ttl=...)] of [LRUCache.set], which
    "creates a new entry (created_at = now, ttl = cache ttl,
    access_count = 0)".  The first access time is the creation time. *)
Definition new (now : Z) (key : string) (value : option V) (ttl : Z) : t :=
  {| key := key; value := value; created_at := now; accessed_at := now;
     access_count := 0; ttl := ttl |}.

(** Modelled from the spec: [CacheEntry.is_expired], "entry considered
    expired when now - created_at > ttl", with [ttl] in seconds and the
    two times in microseconds. *)
Definition is_expired (now : Z) (e : t) : bool :=
  (ttl e * 1000000 <? now - created_at e)%Z.

(** The two attribute updates of [LRUCache.get] on a hit. *)
Definition touch (now : Z) (e : t) : t :=
  {| key := key e; value := value e; created_at := created_at e;
     accessed_at := now; access_count := access_count e + 1;
     ttl := ttl e |}.
End Entry.
Arguments t : clear implicits.
End CacheEntry.

(** ** The dictionary returned by [LRUCache.get_stats] *)
Module Stats.
Record t := mk {
  size : Z;
  max_size : Z;
  hits : Z;
  misses : Z;
  hit_rate : Q;
  total_requests : Z
}.
End Stats.

(** ** LRUCache *)
Module LRUCache.
Section Cache.
Context {V : Type}.

Record t := mk {
  max_size : Z;
  ttl : Z;
  _cache : OrderedDict.t (CacheEntry.t V);
  _hits : Z;
  _misses : Z
}.

(** [LRUCache(max_size, ttl)] *)
Definition init (max_size ttl : Z) : t :=
  {| max_size := max_size; ttl := ttl; _cache := []; _hits := 0;
     _misses := 0 |}.

Definition with_cache (d : OrderedDict.t (CacheEntry.t V)) (c : t) : t :=
  {| max_size := max_size c; ttl := ttl c; _cache := d; _hits := _hits c;
     _misses := _misses c |}.

Definition count_hit (c : t) : t :=
  {| max_size := max_size c; ttl := ttl c; _cache := _cache c;
     _hits := _hits c + 1; _misses := _misses c |}.

Definition count_miss (c : t) : t :=
  {| max_size := max_size c; ttl := ttl c; _cache := _cache c;
     _hits := _hits c; _misses := _misses c + 1 |}.

(** [LRUCache.get].  [now] is the clock reading of [entry.is_expired()]
    and [now'] the later one stored in [entry.accessed_at]. *)
Definition get (now now' : Z) (key : string) (c : t) : option V * t :=
  if negb (OrderedDict.contains key (_cache c)) then
    (None, count_miss c)
  else
    match OrderedDict.getitem key (_cache c) with
    | None => (None, count_miss c)
    | Some entry =>
        if CacheEntry.is_expired now entry then
          (None, count_miss (with_cache (OrderedDict.delitem key (_cache c)) c))
        else
          let d := OrderedDict.move_to_end key (_cache c) in
          let d := OrderedDict.setitem key (CacheEntry.touch now' entry) d in
          (CacheEntry.value entry, count_hit (with_cache d c))
    end.

(** [LRUCache.set], called when the clock reads [now]. *)
Definition set (now : Z) (key : string) (value : option V) (c : t) : t :=
  let entry := CacheEntry.new now key value (ttl c) in
  let d := if OrderedDict.contains key (_cache c)
           then OrderedDict.delitem key (_cache c) else _cache c in
  let d := OrderedDict.setitem key entry d in
  if (max_size c <? OrderedDict.len d)%Z then
    match OrderedDict.popitem_first d with
    | Some (_, d') => with_cache d' c
    | None => with_cache d c
    end
  else with_cache d c.

(** [LRUCache.delete] *)
Definition delete (key : string) (c : t) : bool * t :=
  if OrderedDict.contains key (_cache c)
  then (true, with_cache (OrderedDict.delitem key (_cache c)) c)
  else (false, c).

(** [LRUCache.clear] *)
Definition clear (c : t) : t :=
  {| max_size := max_size c; ttl := ttl c; _cache := []; _hits := 0;
     _misses := 0 |}.

(** [LRUCache.__len__] *)
Definition __len__ (c : t) : Z := OrderedDict.len (_cache c).

(** [LRUCache.__contains__] *)
Definition __contains__ (key : string) (c : t) : bool :=
  OrderedDict.contains key (_cache c).

(** The calls a client can make on a cache, with the clock readings
    they consume. *)
Inductive call :=
| Get (now now' : Z) (key : string)
| Set_ (now : Z) (key : string) (value : option V)
| Delete (key : string)
| Clear.

Definition exec (c : t) (op : call) : t :=
  match op with
  | Get now now' key => snd (get now now' key c)
  | Set_ now key value => set now key value c
  | Delete key => snd (delete key c)
  | Clear => clear c
  end.

(** The cache after a sequence of calls, earliest first. *)
Definition run (ops : list call) (c : t) : t := fold_left exec ops c.

(** The three ways [get] can go. *)
Inductive get_case (now now' : Z) (key : string) (c : t) : option V * t -> Prop :=
| get_absent :
    OrderedDict.contains key (_cache c) = false ->
    get_case now now' key c (None, count_miss c)
| get_expired entry :
    OrderedDict.getitem key (_cache c) = Some entry ->
    CacheEntry.is_expired now entry = true ->
    get_case now now' key c
      (None, count_miss
               (with_cache (OrderedDict.delitem key (_cache c)) c))
| get_hit entry :
    OrderedDict.getitem key (_cache c) = Some entry ->
    CacheEntry.is_expired now entry = false ->
    get_case now now' key c
      (CacheEntry.value entry,
       count_hit
         (with_cache
            (OrderedDict.setitem key (CacheEntry.touch now' entry)
                     (OrderedDict.delitem key (_cache c) ++ [(key, entry)])) c)).

(** What every call preserves, whatever the capacity. *)
Record invariant (max_size' ttl' : Z) (c : t) : Prop := {
  inv_max_size : max_size c = max_size';
  inv_ttl : ttl c = ttl';
  inv_wf : OrderedDict.wf (_cache c)
}.

(** The keys that were stored in [c], other than the key just written,
    and are no longer stored in [c']. *)
Definition evicted (key : string) (c c' : t) : list string :=
  filter (fun k => negb (String.eqb k key) &&
                   negb (OrderedDict.contains k (_cache c')))
         (OrderedDict.keys (_cache c)).
(** [LRUCache.get_stats]; the quotient of two integers is exact. *)
Definition get_stats (c : t) : Stats.t :=
  let total_requests := (_hits c + _misses c)%Z in
  let hit_rate := if (0 <? total_requests)%Z
                  then (inject_Z (_hits c) / inject_Z total_requests)%Q
                  else 0%Q in
  {| Stats.size := OrderedDict.len (_cache c);
     Stats.max_size := max_size c;
     Stats.hits := _hits c;
     Stats.misses := _misses c;
     Stats.hit_rate := hit_rate;
     Stats.total_requests := total_requests |}.

(** The truth value of a cache, [bool(cache)]: the class defines
    [__len__] and no [__bool__], so a cache is true when it is not empty. *)
Definition truth (c : t) : bool := negb (__len__ c =? 0)%Z.

(** The number of [get] calls in a sequence of calls since its last
    [clear], added to [n] when there is none. *)
Definition gets_since_clear (ops : list call) (n : Z) : Z :=
  fold_left (fun n op => match op with
                         | Get _ _ _ => (n + 1)%Z
                         | Clear => 0%Z
                         | _ => n
                         end) ops n.
End Cache.
Arguments t : clear implicits.
Arguments call : clear implicits.
End LRUCache.

(** ** hashlib.sha256

    SHA-256 (FIPS 180-4) on byte strings; a 32-bit word is an [N] below
    [2^32], and every addition wraps around. *)
Module Sha256.
Local Open Scope N_scope.

Definition mask32 : N := 0xffffffff.
Definition add32 (x y : N) : N := N.land (x + y) mask32.
Definition rotr (n x : N) : N :=
  N.lor (N.shiftr x n) (N.land (N.shiftl x (32 - n)) mask32).
Definition shr (n x : N) : N := N.shiftr x n.
Definition not32 (x : N) : N := N.lxor x mask32.

Definition Ch (x y z : N) : N := N.lxor (N.land x y) (N.land (not32 x) z).
Definition Maj (x y z : N) : N :=
  N.lxor (N.land x y) (N.lxor (N.land x z) (N.land y z)).
Definition bsig0 (x : N) : N := N.lxor (rotr 2 x) (N.lxor (rotr 13 x) (rotr 22 x)).
Definition bsig1 (x : N) : N := N.lxor (rotr 6 x) (N.lxor (rotr 11 x) (rotr 25 x)).
Definition ssig0 (x : N) : N := N.lxor (rotr 7 x) (N.lxor (rotr 18 x) (shr 3 x)).
Definition ssig1 (x : N) : N := N.lxor (rotr 17 x) (N.lxor (rotr 19 x) (shr 10 x)).

(** The prime numbers below [bound] *)
Definition primes_below (bound : nat) : list N :=
  map N.of_nat
      (filter (fun n => forallb (fun d => negb (n mod d =? 0)%nat) (seq 2 (n - 2)))
              (seq 2 (bound - 2))).

(** The largest [r' >= r], built from the [bits] low bits, with
    [r' ^ k <= x]; for [r = 0] and enough bits, the integer [k]-th root
    of [x]. *)
Fixpoint root_bits (k x : N) (bits : nat) (r : N) : N :=
  match bits with
  | O => r
  | S b =>
      let r' := r + 2 ^ N.of_nat b in
      if r' ^ k <=? x then root_bits k x b r' else root_bits k x b r
  end.

(** The first 32 bits of the fractional part of the [k]-th root of [p] *)
Definition frac_root (k p : N) : N :=
  N.land (root_bits k (p * 2 ^ (32 * k)) 36 0) mask32.

(** The round constants: from the cube roots of the first 64 primes *)
Definition K : list N := Eval vm_compute in map (frac_root 3) (primes_below 312).

(** The initial hash value: from the square roots of the first 8 primes *)
Definition H0 : list N := Eval vm_compute in map (frac_root 2) (primes_below 20).

(** The [n] low bytes of [x], most significant first. *)
Fixpoint be_bytes (n : nat) (x : N) : list N :=
  match n with
  | O => []
  | S n' => be_bytes n' (N.shiftr x 8) ++ [N.land x 0xff]
  end.

(** Padding: a one bit, zero bits up to 56 modulo 64 bytes, and the
    length of the message in bits on 8 bytes. *)
Definition pad (msg : list N) : list N :=
  let l := N.of_nat (List.length msg) in
  let zeros := (55 + 64 - l mod 64) mod 64 in
  msg ++ [0x80] ++ repeat 0 (N.to_nat zeros) ++ be_bytes 8 (8 * l).

Fixpoint be_word (bs : list N) : N :=
  match bs with
  | [] => 0
  | b :: bs' => N.lor (N.shiftl b (8 * N.of_nat (List.length bs'))) (be_word bs')
  end.

(** Cuts a list into pieces of [n] elements; [fuel] bounds their number. *)
Fixpoint chunks {A} (n fuel : nat) (l : list A) : list (list A) :=
  match fuel with
  | O => []
  | S fuel' =>
      match l with
      | [] => []
      | _ => firstn n l :: chunks n fuel' (skipn n l)
      end
  end.

(** The message schedule, latest word first: [wrev] holds W[t-1] .. W[0]. *)
Fixpoint schedule (n : nat) (wrev : list N) : list N :=
  match n with
  | O => wrev
  | S n' =>
      let w := add32 (add32 (ssig1 (nth 1 wrev 0)) (nth 6 wrev 0))
                     (add32 (ssig0 (nth 14 wrev 0)) (nth 15 wrev 0)) in
      schedule n' (w :: wrev)
  end.

Definition round (s : list N) (kw : N * N) : list N :=
  match s with
  | [a; b; c; d; e; f; g; h] =>
      let t1 := add32 (add32 (add32 h (bsig1 e)) (add32 (Ch e f g) (fst kw)))
                      (snd kw) in
      let t2 := add32 (bsig0 a) (Maj a b c) in
      [add32 t1 t2; a; b; c; add32 d t1; e; f; g]
  | _ => s
  end.

Definition compress (h : list N) (block : list N) : list N :=
  let w16 := map be_word (chunks 4 16 block) in
  let w := rev (schedule 48 (rev w16)) in
  let s := fold_left round (combine K w) h in
  map (fun p => add32 (fst p) (snd p)) (combine h s).

Definition digest_words (msg : list N) : list N :=
  let p := pad msg in
  fold_left compress (chunks 64 (List.length p) p) H0.

Definition hex_digit (n : N) : ascii :=
  if n <? 10 then ascii_of_N (48 + n) else ascii_of_N (87 + n).

Fixpoint hex (digits : nat) (x : N) : string :=
  match digits with
  | O => EmptyString
  | S d' => (hex d' (N.shiftr x 4) ++ String (hex_digit (N.land x 0xf)) EmptyString)%string
  end.

(** [hashlib.sha256(bytes).hexdigest()] *)
Definition hexdigest (msg : list N) : string :=
  String.concat EmptyString (map (hex 8) (digest_words msg)).
End Sha256.

(** [str.encode()]: UTF-8, for code points below 256. *)
Definition str_encode (s : string) : list N :=
  flat_map (fun c => let n := N_of_ascii c in
                     if (n <? 128)%N then [n]
                     else [N.lor 0xc0 (N.shiftr n 6); N.lor 0x80 (N.land n 0x3f)]%N)
           (list_ascii_of_string s).

(** Reading back the first character of an encoded text: the inverse of
    [str_encode] on one character. *)
Definition decode_char (bs : list N) : option (ascii * list N) :=
  match bs with
  | [] => None
  | b :: r =>
      if (b <? 128)%N then Some (ascii_of_N b, r)
      else
        match r with
        | b' :: r' =>
            Some (ascii_of_N (N.lor (N.shiftl (N.land b 0x1f) 6) (N.land b' 0x3f)),
                  r')
        | [] => None
        end
  end.

(** ** json.dumps(obj, sort_keys=True)

    The values a keyword argument can carry: [None], booleans, integers,
    strings, lists, and dictionaries with string keys.  Floats are not
    modelled. *)
Module json.
Local Open Scope string_scope.

#[local] Set Warnings "-register-all".
Inductive value :=
| Null
| Bool_ (b : bool)
| Int (n : Z)
| Str (s : string)
| List_ (items : list value)
| Dict (items : list (string * value)).

(** The quotation mark, as a string *)
Definition dquote : string := String (ascii_of_N 34) EmptyString.

(** The replacement of one character by [py_encode_basestring_ascii]:
    a character from space to tilde other than the quote and the
    backslash stands for itself; the others are escaped. *)
Definition escape_char (c : ascii) : string :=
  let n := N_of_ascii c in
  if (n =? 34)%N then "\" ++ dquote
  else if (n =? 92)%N then "\\"
  else if (n =? 8)%N then "\b"
  else if (n =? 12)%N then "\f"
  else if (n =? 10)%N then "\n"
  else if (n =? 13)%N then "\r"
  else if (n =? 9)%N then "\t"
  else if ((32 <=? n) && (n <=? 126))%N then String c EmptyString
  else "\u" ++ Sha256.hex 4 n.

Fixpoint escape (s : string) : string :=
  match s with
  | EmptyString => EmptyString
  | String c s' => escape_char c ++ escape s'
  end.

(** The value of a hexadecimal digit *)
Definition hex_value (c : ascii) : N :=
  let n := N_of_ascii c in if (n <? 58)%N then (n - 48)%N else (n - 87)%N.

(** The first character of an escaped text and the rest of the text: the
    inverse of [escape_char]. *)
Definition unescape_char (s : string) : option (ascii * string) :=
  match s with
  | EmptyString => None
  | String c r =>
      if (N_of_ascii c =? 92)%N then
        match r with
        | String d r' =>
            let n := N_of_ascii d in
            if (n =? 34)%N then Some (ascii_of_N 34, r')
            else if (n =? 92)%N then Some (ascii_of_N 92, r')
            else if (n =? 98)%N then Some (ascii_of_N 8, r')
            else if (n =? 102)%N then Some (ascii_of_N 12, r')
            else if (n =? 110)%N then Some (ascii_of_N 10, r')
            else if (n =? 114)%N then Some (ascii_of_N 13, r')
            else if (n =? 116)%N then Some (ascii_of_N 9, r')
            else
              match r' with
              | String h1 (String h2 (String h3 (String h4 r''))) =>
                  Some (ascii_of_N (4096 * hex_value h1 + 256 * hex_value h2
                                    + 16 * hex_value h3 + hex_value h4), r'')
              | _ => None
              end
        | EmptyString => None
        end
      else Some (c, r)
  end.

(** The JSON text of a string *)
Definition encode_str (s : string) : string := dquote ++ escape s ++ dquote.

(** [str(n)] for an integer *)
Definition str_of_int (n : Z) : string :=
  DecimalString.NilZero.string_of_int (Z.to_int n).

(** Insertion of an item into a list of items sorted by key *)
Fixpoint insert_item (kv : string * string) (l : list (string * string))
  : list (string * string) :=
  match l with
  | [] => [kv]
  | kv' :: l' =>
      if String.leb (fst kv) (fst kv') then kv :: l
      else kv' :: insert_item kv l'
  end.

(** [sorted(items)], for items with pairwise distinct keys *)
Definition sort_items (l : list (string * string)) : list (string * string) :=
  fold_right insert_item [] l.

(** The order of items *)
Definition item_le (a b : string * string) : Prop :=
  String.leb (fst a) (fst b) = true.

Definition render_item (kv : string * string) : string :=
  encode_str (fst kv) ++ ": " ++ snd kv.

Fixpoint dumps (v : value) : string :=
  match v with
  | Null => "null"
  | Bool_ true => "true"
  | Bool_ false => "false"
  | Int n => str_of_int n
  | Str s => encode_str s
  | List_ items => "[" ++ String.concat ", " (map dumps items) ++ "]"
  | Dict items =>
      "{" ++ String.concat ", "
               (map render_item
                    (sort_items (map (fun kv => (fst kv, dumps (snd kv))) items)))
          ++ "}"
  end.
End json.

(** ** CacheConfig ([config/settings.py]) *)
Module CacheConfig.
Record t := mk {
  enabled : bool;
  ttl : Z;
  max_size : Z
}.

(** [CacheConfig()], with the declared defaults *)
Definition default : t := {| enabled := true; ttl := 3600; max_size := 1000 |}.
End CacheConfig.

(** ** QueryCache *)
Module QueryCache.
Section Cache.
Context {V : Type}.

Record t := mk {
  config : CacheConfig.t;
  cache : option (LRUCache.t V)
}.

(** [QueryCache(config)] *)
Definition init (config : option CacheConfig.t) : t :=
  let config := match config with Some c => c | None => CacheConfig.default end in
  {| config := config;
     cache := if CacheConfig.enabled config
              then Some (LRUCache.init (CacheConfig.max_size config)
                                       (CacheConfig.ttl config))
              else None |}.

(** Pairwise distinct names *)
Fixpoint distinct (names : list string) : bool :=
  match names with
  | [] => true
  | n :: names' => negb (existsb (String.eqb n) names') && distinct names'
  end.

(** What Python guarantees of the keyword arguments [**kwargs] of
    [_generate_key(self, query, **kwargs)]: their names are pairwise
    distinct and none is [query], the name of the positional parameter. *)
Definition kwargs_ok (kwargs : list (string * json.value)) : bool :=
  distinct ("query"%string :: OrderedDict.keys kwargs).

(** The dictionary display [{"query": query, **kwargs}] *)
Definition key_data (query : string) (kwargs : list (string * json.value))
  : list (string * json.value) :=
  fold_left (fun d kv => OrderedDict.setitem (fst kv) (snd kv) d) kwargs
            [("query"%string, json.Str query)].

(** [key_string] of [_generate_key] *)
Definition key_string (query : string) (kwargs : list (string * json.value))
  : string :=
  json.dumps (json.Dict (key_data query kwargs)).

(** [QueryCache._generate_key] *)
Definition _generate_key (query : string) (kwargs : list (string * json.value))
  : string :=
  Sha256.hexdigest (str_encode (key_string query kwargs)).

(** [QueryCache.get] *)
Definition get (now now' : Z) (query : string)
           (kwargs : list (string * json.value)) (q : t) : option V * t :=
  if negb (CacheConfig.enabled (config q)) then (None, q)
  else
    match cache q with
    | None => (None, q)
    | Some c =>
        let key := _generate_key query kwargs in
        let (result, c') := LRUCache.get now now' key c in
        (result, {| config := config q; cache := Some c' |})
    end.

(** [QueryCache.set] *)
Definition set (now : Z) (query : string) (result : option V)
           (kwargs : list (string * json.value)) (q : t) : t :=
  if negb (CacheConfig.enabled (config q)) then q
  else
    match cache q with
    | None => q
    | Some c =>
        let key := _generate_key query kwargs in
        {| config := config q; cache := Some (LRUCache.set now key result c) |}
    end.
(** [QueryCache.clear]; [if self.cache] tests the truth value of the
    cache. *)
Definition clear (q : t) : t :=
  match cache q with
  | Some c =>
      if LRUCache.truth c
      then {| config := config q; cache := Some (LRUCache.clear c) |}
      else q
  | None => q
  end.

(** What [QueryCache.get_stats] returns: the statistics of the cache, or
    the dictionary with the single entry [enabled: False]. *)
Inductive stats_result :=
| Statistics (s : Stats.t)
| NotEnabled.

(** [QueryCache.get_stats] *)
Definition get_stats (q : t) : stats_result :=
  match cache q with
  | Some c =>
      if LRUCache.truth c then Statistics (LRUCache.get_stats c) else NotEnabled
  | None => NotEnabled
  end.

(** The calls a client can make on a query cache *)
Inductive call :=
| Get (now now' : Z) (query : string) (kwargs : list (string * json.value))
| Set_ (now : Z) (query : string) (result : option V)
       (kwargs : list (string * json.value))
| Clear.

Definition exec (q : t) (op : call) : t :=
  match op with
  | Get now now' query kwargs => snd (get now now' query kwargs q)
  | Set_ now query result kwargs => set now query result kwargs q
  | Clear => clear q
  end.

(** The query cache after a sequence of calls, earliest first. *)
Definition run (ops : list call) (q : t) : t := fold_left exec ops q.

(** What the calls preserve in an enabled query cache: the configuration,
    and a well-formed cache with the configured capacity and ttl. *)
Definition enabled_invariant (cfg : CacheConfig.t) (q : t) : Prop :=
  config q = cfg /\
  exists c, cache q = Some c /\
            LRUCache.invariant (CacheConfig.max_size cfg) (CacheConfig.ttl cfg) c.
End Cache.
Arguments t : clear implicits.
Arguments call : clear implicits.
End QueryCache.

(** ** Exceptions

    The exception classes that [src/utils/retry.py] names, the built-in
    ones it can raise or catch, and [Subclass] for any further class
    derived from one of them. *)
Module exceptions.
Inductive cls :=
| BaseException
| Exception
| ValueError
| OSError
| TimeoutError
| RAGException
| LLMError
| LLMTimeoutError
| LLMRateLimitError
| Subclass (name : string) (base : cls).

Fixpoint cls_eqb (c d : cls) : bool :=
  match c, d with
  | BaseException, BaseException => true
  | Exception, Exception => true
  | ValueError, ValueError => true
  | OSError, OSError => true
  | TimeoutError, TimeoutError => true
  | RAGException, RAGException => true
  | LLMError, LLMError => true
  | LLMTimeoutError, LLMTimeoutError => true
  | LLMRateLimitError, LLMRateLimitError => true
  | Subclass n b, Subclass n' b' => String.eqb n n' && cls_eqb b b'
  | _, _ => false
  end.

(** The class and its ancestors, nearest first *)
Fixpoint mro (c : cls) : list cls :=
  match c with
  | BaseException => [BaseException]
  | Exception => [Exception; BaseException]
  | ValueError => [ValueError; Exception; BaseException]
  | OSError => [OSError; Exception; BaseException]
  | TimeoutError => [TimeoutError; OSError; Exception; BaseException]
  | RAGException => [RAGException; Exception; BaseException]
  | LLMError => [LLMError; RAGException; Exception; BaseException]
  | LLMTimeoutError =>
      [LLMTimeoutError; LLMError; RAGException; Exception; BaseException]
  | LLMRateLimitError =>
      [LLMRateLimitError; LLMError; RAGException; Exception; BaseException]
  | Subclass _ base => c :: mro base
  end.

Definition issubclass (c d : cls) : bool := existsb (cls_eqb d) (mro c).

(** A piece of an exception message: literal text, or a number of
    seconds interpolated by an f-string. *)
Inductive piece :=
| Text (s : string)
| Seconds (q : Q).

(** An exception object: its class and its message. *)
Record exc := mk {
  exc_class : cls;
  exc_message : list piece
}.

(** [isinstance(e, classes)] for a tuple of classes, which is what an
    [except classes] clause tests. *)
Definition isinstance (e : exc) (classes : list cls) : bool :=
  existsb (issubclass (exc_class e)) classes.

(** The numbers an exception message carries *)
Definition seconds_carried (e : exc) : list Q :=
  flat_map (fun p => match p with Seconds q => [q] | Text _ => [] end)
           (exc_message e).
End exceptions.

(** ** Retry and circuit breaker ([src/utils/retry.py])

    The wrapped function acts on a world [W], which also holds the clock;
    a call of it returns a result or raises, and leaves a new world. *)
Module retry.
Import exceptions.

Inductive outcome (A : Type) :=
| Return (a : A)
| Raise (e : exc).
Arguments Return {A} a.
Arguments Raise {A} e.

(** What a wrapper does, in order: calls of the wrapped function with
    their outcomes, calls of the [on_retry] callback, and completed
    sleeps. *)
Inductive event (R : Type) :=
| Called (r : outcome R)
| Notified (e : exc) (attempt : Z)
| Slept (delay : Q).
Arguments Called {R} r.
Arguments Notified {R} e attempt.
Arguments Slept {R} delay.

(** [exponential_backoff] *)
Definition exponential_backoff (attempt : Z)
           (base_delay max_delay exponential_base : Q) : Q :=
  Qmin (base_delay * exponential_base ^ attempt) max_delay.

Section Wrappers.
Variables W R : Type.
(** [time.time()] *)
Variable time_time : W -> Q.
(** The effect of [time.sleep(d)] for a non-negative [d] *)
Variable time_sleep : Q -> W -> W.

Definition operation := W -> outcome R * W.

(** The arguments of [retry_with_exponential_backoff] *)
Record policy := mk_policy {
  max_retries : Z;
  base_delay : Q;
  max_delay : Q;
  exponential_base : Q;
  exceptions : list cls;
  on_retry : option (exc -> Z -> W -> outcome unit * W)
}.

(** [time.sleep(delay)], which refuses a negative delay *)
Definition sleep (delay : Q) (w : W) : outcome unit * W :=
  if Qle_bool 0 delay then (Return tt, time_sleep delay w)
  else (Raise {| exc_class := ValueError;
                 exc_message := [Text "sleep length must be non-negative"] |},
        w).

(** The loop [for attempt in range(max_retries + 1)] of [wrapper], with
    [n] iterations left, and the statements after it. *)
Fixpoint attempts (p : policy) (func : operation) (n : nat) (attempt : Z)
         (last_exception : option exc) (w : W)
  : outcome (option R) * W * list (event R) :=
  match n with
  | O =>
      match last_exception with
      | Some e => (Raise e, w, [])
      | None => (Return None, w, [])
      end
  | S n' =>
      let (r, w1) := func w in
      match r with
      | Return a => (Return (Some a), w1, [Called r])
      | Raise e =>
          if isinstance e (exceptions p) then
            if (attempt =? max_retries p)%Z then (Raise e, w1, [Called r])
            else
              let delay := exponential_backoff attempt (base_delay p)
                             (max_delay p) (exponential_base p) in
              let '(c, w2, notified) :=
                match on_retry p with
                | Some callback =>
                    let (c, w2) := callback e attempt w1 in
                    (c, w2, [Notified e attempt])
                | None => (Return tt, w1, [])
                end in
              match c with
              | Raise e' => (Raise e', w2, Called r :: notified)
              | Return _ =>
                  match sleep delay w2 with
                  | (Raise e', w3) => (Raise e', w3, Called r :: notified)
                  | (Return _, w3) =>
                      let '(res, w4, tr) :=
                        attempts p func n' (attempt + 1) (Some e) w3 in
                      (res, w4, Called r :: notified ++ Slept delay :: tr)
                  end
              end
          else (Raise e, w1, [Called r])
      end
  end.

(** [retry_with_exponential_backoff(...)(func)], called in world [w] *)
Definition retry_with_exponential_backoff (p : policy) (func : operation)
           (w : W) : outcome (option R) * W * list (event R) :=
  attempts p func (Z.to_nat (max_retries p + 1)) 0 None w.

(** [retry_on_rate_limit]; its callback only logs. *)
Definition retry_on_rate_limit (max_retries : Z) (base_delay : Q) : policy :=
  {| max_retries := max_retries; base_delay := base_delay; max_delay := 300;
     exponential_base := 2; exceptions := [LLMRateLimitError];
     on_retry := Some (fun _ _ w => (Return tt, w)) |}.

(** [retry_on_timeout] *)
Definition retry_on_timeout (max_retries : Z) (base_delay : Q) : policy :=
  {| max_retries := max_retries; base_delay := base_delay; max_delay := 30;
     exponential_base := 2; exceptions := [LLMTimeoutError; TimeoutError];
     on_retry := None |}.

(** The calls of the wrapped function in a trace, and the sleeps *)
Definition calls (tr : list (event R)) : list (outcome R) :=
  flat_map (fun ev => match ev with Called r => [r] | _ => [] end) tr.

Definition sleeps (tr : list (event R)) : list Q :=
  flat_map (fun ev => match ev with Slept d => [d] | _ => [] end) tr.

(** The wrapped function raises a failure of a retried class in every
    world. *)
Definition always_fails (p : policy) (func : operation) : Prop :=
  forall w, exists e w',
    func w = (Raise e, w') /\ isinstance e (exceptions p) = true.

(** The [on_retry] callback, when there is one, returns normally. *)
Definition callback_returns (p : policy) : Prop :=
  match on_retry p with
  | Some callback => forall e attempt w, fst (callback e attempt w) = Return tt
  | None => True
  end.

(** The events of one failed attempt that is followed by a retry *)
Definition failed_attempt (p : policy) (attempt : nat) (e : exc) : list (event R) :=
  Called (Raise e)
  :: match on_retry p with
     | Some _ => [Notified e (Z.of_nat attempt)]
     | None => []
     end
  ++ [Slept (exponential_backoff (Z.of_nat attempt) (base_delay p)
                                 (max_delay p) (exponential_base p))].

(** The trace of a run whose attempts number [start], [start + 1], ...
    fail with the exceptions [es] and are retried, and whose last attempt
    fails with [e_last]. *)
Definition failing_trace (p : policy) (start : nat) (es : list exc)
           (e_last : exc) : list (event R) :=
  flat_map (fun ke => failed_attempt p (fst ke) (snd ke))
           (combine (seq start (List.length es)) es)
  ++ [Called (Raise e_last)].

(** *** CircuitBreaker *)
Inductive breaker_state := closed | open | half_open.

Record CircuitBreaker := mk_breaker {
  failure_threshold : Z;
  recovery_timeout : Q;
  expected_exceptions : list cls;
  failure_count : Z;
  last_failure_time : option Q;
  state : breaker_state
}.

(** [CircuitBreaker(failure_threshold, recovery_timeout, expected_exceptions)] *)
Definition init (failure_threshold : Z) (recovery_timeout : Q)
           (expected_exceptions : list cls) : CircuitBreaker :=
  {| failure_threshold := failure_threshold;
     recovery_timeout := recovery_timeout;
     expected_exceptions := expected_exceptions;
     failure_count := 0; last_failure_time := None; state := closed |}.

Definition with_state (s : breaker_state) (cb : CircuitBreaker) : CircuitBreaker :=
  {| failure_threshold := failure_threshold cb;
     recovery_timeout := recovery_timeout cb;
     expected_exceptions := expected_exceptions cb;
     failure_count := failure_count cb;
     last_failure_time := last_failure_time cb; state := s |}.

Definition with_failure_count (n : Z) (cb : CircuitBreaker) : CircuitBreaker :=
  {| failure_threshold := failure_threshold cb;
     recovery_timeout := recovery_timeout cb;
     expected_exceptions := expected_exceptions cb;
     failure_count := n;
     last_failure_time := last_failure_time cb; state := state cb |}.

Definition with_last_failure_time (t : option Q) (cb : CircuitBreaker)
  : CircuitBreaker :=
  {| failure_threshold := failure_threshold cb;
     recovery_timeout := recovery_timeout cb;
     expected_exceptions := expected_exceptions cb;
     failure_count := failure_count cb;
     last_failure_time := t; state := state cb |}.

(** [CircuitBreaker._should_attempt_reset], when the clock reads [now] *)
Definition _should_attempt_reset (now : Q) (cb : CircuitBreaker) : bool :=
  match last_failure_time cb with
  | None => true
  | Some t => Qle_bool (recovery_timeout cb) (now - t)
  end.

(** [CircuitBreaker._on_success] *)
Definition _on_success (cb : CircuitBreaker) : CircuitBreaker :=
  let cb := match state cb with
            | half_open => with_state closed cb
            | _ => cb
            end in
  with_failure_count 0 cb.

(** [CircuitBreaker._on_failure], when the clock reads [now] *)
Definition _on_failure (now : Q) (cb : CircuitBreaker) : CircuitBreaker :=
  let cb := with_failure_count (failure_count cb + 1) cb in
  let cb := with_last_failure_time (Some now) cb in
  if (failure_threshold cb <=? failure_count cb)%Z
  then with_state open cb else cb.

(** The exception raised while the circuit is open *)
Definition circuit_open (cb : CircuitBreaker) : exc :=
  {| exc_class := Exception;
     exc_message := [Text "Circuit breaker is OPEN. Retry after ";
                     Seconds (recovery_timeout cb); Text "s"] |}.

(** [CircuitBreaker.call] *)
Definition call (func : operation) (cb : CircuitBreaker) (w : W)
  : outcome R * CircuitBreaker * W * list (event R) :=
  let gate :=
    match state cb with
    | open =>
        if _should_attempt_reset (time_time w) cb
        then inl (with_state half_open cb)
        else inr (circuit_open cb)
    | _ => inl cb
    end in
  match gate with
  | inr e => (Raise e, cb, w, [])
  | inl cb =>
      let (r, w1) := func w in
      match r with
      | Return _ => (r, _on_success cb, w1, [Called r])
      | Raise e =>
          if isinstance e (expected_exceptions cb)
          then (r, _on_failure (time_time w1) cb, w1, [Called r])
          else (r, cb, w1, [Called r])
      end
  end.

(** [CircuitBreaker.reset] *)
Definition reset (cb : CircuitBreaker) : CircuitBreaker :=
  with_last_failure_time None (with_failure_count 0 (with_state closed cb)).

(** The uses of a breaker: a call of some function in some world, or a
    manual reset. *)
Inductive use :=
| Call (func : operation) (w : W)
| Reset.

Definition apply_use (cb : CircuitBreaker) (u : use) : CircuitBreaker :=
  match u with
  | Call func w => snd (fst (fst (call func cb w)))
  | Reset => reset cb
  end.

(** The breaker after a sequence of uses, earliest first. *)
Definition after (uses : list use) (cb : CircuitBreaker) : CircuitBreaker :=
  fold_left apply_use uses cb.

(** What every use of a breaker preserves: a breaker that is not closed
    has counted at least [failure_threshold] failures. *)
Definition tripped (cb : CircuitBreaker) : Prop :=
  state cb = closed \/ (failure_threshold cb <= failure_count cb)%Z.

(** Uses told apart by what the function does in its world: it raises a
    failure that an [except expected] clause catches, it raises another
    failure, or it returns. *)
Definition guarded_failure (expected : list cls) (u : use) : bool :=
  match u with
  | Call func w =>
      match fst (func w) with
      | Raise e => isinstance e expected
      | Return _ => false
      end
  | Reset => false
  end.

Definition other_failure (expected : list cls) (u : use) : bool :=
  match u with
  | Call func w =>
      match fst (func w) with
      | Raise e => negb (isinstance e expected)
      | Return _ => false
      end
  | Reset => false
  end.

Definition returns (u : use) : bool :=
  match u with
  | Call func w =>
      match fst (func w) with
      | Return _ => true
      | Raise _ => false
      end
  | Reset => false
  end.

(** The count and the state agree: a closed breaker has counted fewer
    than [failure_threshold] failures, any other has counted at least
    that many and has the time of the last one. *)
Definition consistent (cb : CircuitBreaker) : Prop :=
  (0 <= failure_count cb)%Z /\
  (state cb = closed -> (failure_count cb < failure_threshold cb)%Z) /\
  (state cb <> closed ->
   (failure_threshold cb <= failure_count cb)%Z /\
   last_failure_time cb <> None).

(** The three constructor arguments of a breaker *)
Definition configuration (cb : CircuitBreaker) : Z * Q * list cls :=
  (failure_threshold cb, recovery_timeout cb, expected_exceptions cb).
End Wrappers.
Arguments failed_attempt {W R} p attempt e.
Arguments failing_trace {W R} p start es e_last.

(** Sample functions on a world that is its own clock: one that fails
    with a timeout of the language model, one that fails on its input,
    and one that returns. *)
Definition timeout_error : exc :=
  {| exc_class := LLMTimeoutError; exc_message := [Text "timed out"] |}.

Definition value_error : exc :=
  {| exc_class := ValueError; exc_message := [Text "bad input"] |}.

Definition failing : operation Q Z := fun w => (Raise timeout_error, w).

Definition returning : operation Q Z := fun w => (Return 7%Z, w).

(** A breaker with threshold 3 and a timeout of 60 s that opened at time
    100, and the world as its clock. *)
Definition opened_at_100 : CircuitBreaker :=
  after (fun w : Q => w)
        [Call failing 98; Call failing 99; Call failing 100]
        (init 3 60 [Exception]).
End retry.

(** ** The [cached] decorator ([src/utils/cache.py])

    The decorated function takes positional and keyword arguments of some
    type [A] of Python values, of which the decorator only uses [str]. *)
Module cached.
Import exceptions retry.
Section Decorator.
Variables W V A : Type.
(** [str(x)] *)
Variable py_str : A -> string.

Definition function :=
  list A -> list (string * A) -> W -> outcome (option V) * W.

(** [str(query_arg)]: the first positional argument if there is one, else
    the keyword argument [query], else the empty string. *)
Definition query_arg (args : list A) (kwargs : list (string * A)) : string :=
  match args with
  | a :: _ => py_str a
  | [] =>
      match OrderedDict.getitem "query" kwargs with
      | Some a => py_str a
      | None => EmptyString
      end
  end.

(** The wrapper made by [cached(cache_instance, **cache_kwargs)(func)],
    called with [args] and [kwargs] while the cache instance is in state
    [q]; [now] and [now'] are the clock
    readings of the lookup and [now''] the one of the write. *)
Definition wrapper (cache_kwargs : list (string * json.value)) (func : function)
           (now now' now'' : Z) (args : list A) (kwargs : list (string * A))
           (q : QueryCache.t V) (w : W)
  : outcome (option V) * QueryCache.t V * W * list (event (option V)) :=
  let query := query_arg args kwargs in
  let (cached_result, q1) := QueryCache.get now now' query cache_kwargs q in
  match cached_result with
  | Some v => (Return (Some v), q1, w, [])
  | None =>
      let (r, w1) := func args kwargs w in
      match r with
      | Return result =>
          (Return result, QueryCache.set now'' query result cache_kwargs q1, w1,
           [Called r])
      | Raise e => (Raise e, q1, w1, [Called r])
      end
  end.
End Decorator.
End cached.

(** * Properties *)

(** ** OrderedDict *)
Module OrderedDictFacts.
Import OrderedDict.
Section Facts.
Context {A : Type}.
Implicit Types (d : OrderedDict.t A) (k j : string) (a : A).

Lemma contains_In k d : contains k d = true <-> In k (keys d).
Proof.
  induction d as [|[k' a] d IH]; simpl.
  - split; [discriminate | tauto].
  - destruct (String.eqb_spec k k') as [->|Hne].
    + split; auto.
    + rewrite IH. split; [auto | intros [E|H]; congruence].
Qed.

Lemma contains_not_In k d : contains k d = false <-> ~ In k (keys d).
Proof.
  rewrite <- contains_In. destruct (contains k d); split; congruence.
Qed.

Lemma getitem_contains k d :
  contains k d = true -> exists a, getitem k d = Some a.
Proof.
  induction d as [|[k' a] d IH]; simpl; [discriminate|].
  destruct (String.eqb k k'); eauto.
Qed.

Lemma getitem_absent k d : contains k d = false -> getitem k d = None.
Proof.
  induction d as [|[k' a] d IH]; simpl; [reflexivity|].
  destruct (String.eqb k k'); [discriminate | exact IH].
Qed.

Lemma getitem_In k a d : getitem k d = Some a -> In (k, a) d.
Proof.
  induction d as [|[k' b] d IH]; simpl; [discriminate|].
  destruct (String.eqb_spec k k') as [->|Hne].
  - intros [= ->]. now left.
  - intros H. right. auto.
Qed.

Lemma delitem_absent k d : contains k d = false -> delitem k d = d.
Proof.
  induction d as [|[k' a] d IH]; simpl; [reflexivity|].
  destruct (String.eqb k k'); [discriminate|].
  intros H. now rewrite IH.
Qed.

Lemma setitem_absent k a d :
  contains k d = false -> setitem k a d = d ++ [(k, a)].
Proof.
  induction d as [|[k' b] d IH]; simpl; [reflexivity|].
  destruct (String.eqb k k'); [discriminate|].
  intros H. now rewrite IH.
Qed.

Lemma keys_setitem_present k a d :
  contains k d = true -> keys (setitem k a d) = keys d.
Proof.
  induction d as [|[k' b] d IH]; simpl; [discriminate|].
  destruct (String.eqb k k'); simpl; [reflexivity|].
  intros H. now rewrite IH.
Qed.

Lemma getitem_setitem_other j k a d :
  j <> k -> getitem j (setitem k a d) = getitem j d.
Proof.
  intros Hne. induction d as [|[k' b] d IH]; simpl.
  - destruct (String.eqb_spec j k); congruence.
  - destruct (String.eqb_spec k k') as [->|Hk]; simpl.
    + destruct (String.eqb_spec j k'); congruence.
    + now rewrite IH.
Qed.

Lemma length_delitem_present k d :
  contains k d = true -> S (List.length (delitem k d)) = List.length d.
Proof.
  induction d as [|[k' a] d IH]; simpl; [discriminate|].
  destruct (String.eqb k k'); simpl; [reflexivity|].
  intros H. now rewrite IH.
Qed.

Lemma keys_delitem_filter k d :
  filter (fun j => negb (String.eqb j k)) (keys (delitem k d))
  = filter (fun j => negb (String.eqb j k)) (keys d).
Proof.
  induction d as [|[k' a] d IH]; simpl; [reflexivity|].
  destruct (String.eqb_spec k k') as [->|Hne]; simpl.
  - now rewrite String.eqb_refl.
  - now rewrite IH.
Qed.

Lemma In_keys_delitem j k d : In j (keys (delitem k d)) -> In j (keys d).
Proof.
  induction d as [|[k' a] d IH]; simpl; [tauto|].
  destruct (String.eqb k k'); simpl; [auto | intros [E|H]; auto].
Qed.

Lemma In_keys_delitem_other j k d :
  j <> k -> In j (keys d) -> In j (keys (delitem k d)).
Proof.
  intros Hne. induction d as [|[k' a] d IH]; simpl; [tauto|].
  destruct (String.eqb_spec k k') as [->|Hk]; simpl.
  - intros [E|H]; [congruence | exact H].
  - intros [E|H]; auto.
Qed.

Lemma getitem_delitem_other j k d :
  j <> k -> getitem j (delitem k d) = getitem j d.
Proof.
  intros Hne. induction d as [|[k' a] d IH]; simpl; [reflexivity|].
  destruct (String.eqb_spec k k') as [->|Hk]; simpl.
  - destruct (String.eqb_spec j k'); congruence.
  - now rewrite IH.
Qed.

Lemma wf_delitem k d : wf d -> wf (delitem k d).
Proof.
  unfold wf. induction d as [|[k' a] d IH]; simpl; [auto|].
  intros H. inversion H as [|? ? Hnotin Hnd]; subst.
  destruct (String.eqb k k'); simpl; [exact Hnd|].
  constructor; [|auto].
  intros Hin. apply Hnotin. eapply In_keys_delitem; eauto.
Qed.

Lemma delitem_removes k d : wf d -> contains k (delitem k d) = false.
Proof.
  unfold wf. induction d as [|[k' a] d IH]; simpl; [reflexivity|].
  intros H. inversion H as [|? ? Hnotin Hnd]; subst.
  destruct (String.eqb_spec k k') as [->|Hk]; simpl.
  - now apply contains_not_In.
  - destruct (String.eqb_spec k k'); [congruence | auto].
Qed.

Lemma getitem_app_other j k a d :
  j <> k -> getitem j (d ++ [(k, a)]) = getitem j d.
Proof.
  intros Hne. induction d as [|[k' b] d IH]; simpl.
  - destruct (String.eqb_spec j k); congruence.
  - now rewrite IH.
Qed.

Lemma keys_app d1 d2 : keys (d1 ++ d2) = keys d1 ++ keys d2.
Proof. apply map_app. Qed.

Lemma wf_snoc k a d : wf d -> contains k d = false -> wf (d ++ [(k, a)]).
Proof.
  unfold wf. intros Hd Hk. rewrite keys_app. simpl.
  apply NoDup_app; [exact Hd | repeat constructor; simpl; tauto |].
  intros x Hx [<-|[]]. apply contains_not_In in Hk. tauto.
Qed.

Lemma len_length d : len d = Z.of_nat (List.length (keys d)).
Proof. unfold len, keys. now rewrite length_map. Qed.
End Facts.
End OrderedDictFacts.

(** ** LRUCache *)
Module LRUCacheFacts.
Import OrderedDict OrderedDictFacts.
Section Facts.
Context {V : Type}.
Implicit Types (c : LRUCache.t V) (key k : string) (now : Z).

(** The dictionary that [set] leaves, for a well-formed one: the old
    binding of the key goes, the new one is appended, and the head is
    dropped when the capacity is exceeded. *)
Lemma set_cache now key value c :
  wf (LRUCache._cache c) ->
  LRUCache._cache (LRUCache.set now key value c)
  = let d := delitem key (LRUCache._cache c) ++ [(key, CacheEntry.new now key value (LRUCache.ttl c))] in
    if (LRUCache.max_size c <? len d)%Z then tl d else d.
Proof.
  intros Hwf. unfold LRUCache.set.
  assert (E : setitem key (CacheEntry.new now key value (LRUCache.ttl c))
                (if contains key (LRUCache._cache c)
                 then delitem key (LRUCache._cache c) else LRUCache._cache c)
              = delitem key (LRUCache._cache c) ++ [(key, CacheEntry.new now key value (LRUCache.ttl c))]).
  { destruct (contains key (LRUCache._cache c)) eqn:Hc.
    - apply setitem_absent. now apply delitem_removes.
    - rewrite (delitem_absent _ _ Hc). now apply setitem_absent. }
  rewrite E. cbv zeta.
  destruct (LRUCache.max_size c <? _)%Z; [|reflexivity].
  destruct (delitem key (LRUCache._cache c)); reflexivity.
Qed.

Lemma set_fields now key value c :
  LRUCache.max_size (LRUCache.set now key value c) = LRUCache.max_size c /\
  LRUCache.ttl (LRUCache.set now key value c) = LRUCache.ttl c /\
  LRUCache._hits (LRUCache.set now key value c) = LRUCache._hits c /\
  LRUCache._misses (LRUCache.set now key value c) = LRUCache._misses c.
Proof.
  unfold LRUCache.set.
  destruct (_ <? _)%Z; [destruct (popitem_first _) as [[? ?]|]|]; simpl; auto.
Qed.

Lemma get_cases now now' key c :
  LRUCache.get_case now now' key c (LRUCache.get now now' key c).
Proof.
  unfold LRUCache.get.
  destruct (contains key (LRUCache._cache c)) eqn:Hc; simpl.
  - destruct (getitem_contains _ _ Hc) as [entry He]. rewrite He.
    destruct (CacheEntry.is_expired now entry) eqn:Hx.
    + now apply LRUCache.get_expired with (entry := entry).
    + unfold move_to_end. rewrite He. now apply LRUCache.get_hit.
  - now apply LRUCache.get_absent.
Qed.

Lemma contains_snoc key (e : CacheEntry.t V) d : contains key (d ++ [(key, e)]) = true.
Proof. apply contains_In. rewrite keys_app. apply in_or_app. right. now left. Qed.

(** The keys after a hit: the key read goes last, the others keep their
    order. *)
Lemma keys_hit now' key (entry : CacheEntry.t V) d :
  keys (setitem key (CacheEntry.touch now' entry) (delitem key d ++ [(key, entry)]))
  = keys (delitem key d) ++ [key].
Proof.
  rewrite keys_setitem_present by apply contains_snoc. now rewrite keys_app.
Qed.

Lemma length_delitem_le key (d : OrderedDict.t (CacheEntry.t V)) :
  (List.length (delitem key d) <= List.length d)%nat.
Proof.
  destruct (contains key d) eqn:Hc.
  - rewrite <- (length_delitem_present _ _ Hc). lia.
  - rewrite (delitem_absent _ _ Hc). lia.
Qed.

Lemma wf_tl (d : OrderedDict.t (CacheEntry.t V)) : wf d -> wf (tl d).
Proof.
  unfold wf. destruct d as [|b d]; simpl; [auto|].
  intros H. now inversion H.
Qed.

Lemma exec_invariant max_size ttl c op :
  LRUCache.invariant max_size ttl c -> LRUCache.invariant max_size ttl (LRUCache.exec c op).
Proof.
  intros [Hm Ht Hwf].
  destruct op as [now now' key|now key value|key|]; simpl.
  - destruct (get_cases now now' key c) as [Hc|entry He Hx|entry He Hx]; simpl.
    + now split.
    + split; simpl; auto. now apply wf_delitem.
    + split; simpl; auto. unfold wf. rewrite keys_hit.
      rewrite <- keys_app with (d2 := [(key, entry)]).
      apply wf_snoc; [now apply wf_delitem | now apply delitem_removes].
  - destruct (set_fields now key value c) as (Em & Et & _ & _).
    split; [congruence | congruence |].
    rewrite set_cache by assumption. cbv zeta.
    assert (Hwf' : wf (delitem key (LRUCache._cache c)
                       ++ [(key, CacheEntry.new now key value (LRUCache.ttl c))])).
    { apply wf_snoc; [now apply wf_delitem | now apply delitem_removes]. }
    destruct (_ <? _)%Z; [now apply wf_tl | assumption].
  - unfold LRUCache.delete.
    destruct (contains key (LRUCache._cache c)); simpl; [|now split].
    split; simpl; auto. now apply wf_delitem.
  - split; simpl; auto. apply NoDup_nil.
Qed.

Lemma init_invariant max_size ttl :
  LRUCache.invariant max_size ttl (LRUCache.init (V:=V) max_size ttl).
Proof. split; simpl; auto. apply NoDup_nil. Qed.

Lemma run_from_invariant max_size ttl ops c :
  LRUCache.invariant max_size ttl c -> LRUCache.invariant max_size ttl (LRUCache.run ops c).
Proof.
  unfold LRUCache.run. revert c.
  induction ops as [|op ops IH]; simpl; intros c Hc; [exact Hc|].
  apply IH. now apply exec_invariant.
Qed.

Lemma run_invariant max_size ttl ops :
  LRUCache.invariant max_size ttl
    (LRUCache.run ops (LRUCache.init (V:=V) max_size ttl)).
Proof. apply run_from_invariant, init_invariant. Qed.

(** The capacity bound is preserved by every call, for a capacity that is
    not negative. *)
Lemma exec_capacity c op :
  (0 <= LRUCache.max_size c)%Z -> wf (LRUCache._cache c) ->
  (LRUCache.__len__ c <= LRUCache.max_size c)%Z ->
  (LRUCache.__len__ (LRUCache.exec c op) <= LRUCache.max_size c)%Z.
Proof.
  intros Hms Hwf Hcap. unfold LRUCache.__len__ in *.
  destruct op as [now now' key|now key value|key|]; simpl.
  - pose proof (length_delitem_le key (LRUCache._cache c)) as Hd.
    destruct (get_cases now now' key c) as [Hc|entry He Hx|entry He Hx]; simpl.
    + assumption.
    + unfold len in *. lia.
    + assert (Hin : contains key (LRUCache._cache c) = true).
      { apply contains_In. apply getitem_In in He.
        apply (in_map fst) in He. exact He. }
      rewrite len_length, keys_hit.
      rewrite length_app. unfold keys. rewrite length_map. simpl.
      pose proof (length_delitem_present _ _ Hin) as Hl.
      unfold len in Hcap. lia.
  - rewrite set_cache by assumption. cbv zeta.
    destruct (Z.ltb_spec (LRUCache.max_size c)
                (len (delitem key (LRUCache._cache c)
                      ++ [(key, CacheEntry.new now key value (LRUCache.ttl c))]))) as [Hlt|Hle];
      [|exact Hle].
    pose proof (length_delitem_le key (LRUCache._cache c)) as Hd.
    unfold len in *.
    destruct (delitem key (LRUCache._cache c)); simpl in *;
      rewrite ?length_app in *; simpl in *; lia.
  - unfold LRUCache.delete.
    destruct (contains key (LRUCache._cache c)); simpl; [|assumption].
    pose proof (length_delitem_le key (LRUCache._cache c)).
    unfold len in *. lia.
  - exact Hms.
Qed.

Lemma run_capacity max_size ttl ops :
  (0 <= max_size)%Z ->
  (LRUCache.__len__ (LRUCache.run ops (LRUCache.init (V:=V) max_size ttl))
   <= max_size)%Z.
Proof.
  intros Hms. unfold LRUCache.run.
  pose proof (init_invariant max_size ttl) as H0.
  assert (C0 : (LRUCache.__len__ (LRUCache.init (V:=V) max_size ttl) <= max_size)%Z)
    by exact Hms.
  revert H0 C0. generalize (LRUCache.init (V:=V) max_size ttl).
  induction ops as [|op ops IH]; simpl; intros c Hc Cc; [exact Cc|].
  pose proof (exec_invariant op Hc) as Hc'.
  apply IH; [exact Hc'|].
  destruct Hc as [Hm Ht Hwf]. rewrite <- Hm in *. now apply exec_capacity.
Qed.

End Facts.
End LRUCacheFacts.

Module LRUCacheSpec.
Import OrderedDict OrderedDictFacts LRUCacheFacts.

Lemma filter_none {A} (f : A -> bool) (l : list A) :
  (forall x, In x l -> f x = false) -> filter f l = [].
Proof.
  induction l as [|x l IH]; simpl; intros H; [reflexivity|].
  rewrite (H x) by now left. apply IH. intros y Hy. apply H. now right.
Qed.

Lemma filter_all {A} (f : A -> bool) (l : list A) :
  (forall x, In x l -> f x = true) -> filter f l = l.
Proof.
  induction l as [|x l IH]; simpl; intros H; [reflexivity|].
  rewrite (H x) by now left. f_equal. apply IH. intros y Hy. apply H. now right.
Qed.

Section Spec.
Context {V : Type}.
Implicit Types (c : LRUCache.t V) (key k : string).

Lemma keys_delitem_wf key (d : OrderedDict.t (CacheEntry.t V)) :
  wf d ->
  keys (delitem key d) = filter (fun j => negb (String.eqb j key)) (keys d).
Proof.
  intros Hwf. rewrite <- keys_delitem_filter. symmetry. apply filter_all.
  intros x Hx. destruct (String.eqb_spec x key) as [->|]; [|reflexivity].
  apply contains_In in Hx. now rewrite delitem_removes in Hx.
Qed.

(** C1. For a cache created with [max_size >= 1] and brought to any state
    by a sequence of calls, a [set] leaves at most [max_size] entries, and
    it removes either no other key or exactly one, which is then the head
    of the order (the least recently used key) of a cache that was full. *)
Theorem set_capacity_single_eviction :
  forall (max_size ttl : Z) (ops : list (LRUCache.call V))
         (now : Z) (key : string) (value : option V),
    (1 <= max_size)%Z ->
    let c := LRUCache.run ops (LRUCache.init max_size ttl) in
    let c' := LRUCache.set now key value c in
    (LRUCache.__len__ c' <= max_size)%Z /\
    (LRUCache.evicted key c c' = [] \/
     exists lru entry rest,
       LRUCache._cache c = (lru, entry) :: rest /\
       LRUCache.evicted key c c' = [lru] /\
       LRUCache.__len__ c = max_size).
Proof.
  intros max_size ttl ops now key value Hms c c'.
  destruct (run_invariant max_size ttl ops) as [Hm Ht Hwf]. fold c in Hm, Ht, Hwf.
  assert (Hcap : (LRUCache.__len__ c <= max_size)%Z)
    by (apply run_capacity; lia).
  subst c'. clearbody c.
  split.
  - rewrite <- Hm.
    apply (@exec_capacity V c (LRUCache.Set_ now key value));
      [lia | assumption | lia].
  - unfold LRUCache.evicted. rewrite set_cache by assumption.
    cbv zeta. rewrite Hm.
    set (e := CacheEntry.new now key value (LRUCache.ttl c)).
    destruct (Z.ltb_spec max_size
                (len (delitem key (LRUCache._cache c) ++ [(key, e)])))
      as [Hlt|Hle].
    + right.
      destruct (contains key (LRUCache._cache c)) eqn:Hc.
      { exfalso. pose proof (length_delitem_present _ _ Hc) as Hl.
        unfold LRUCache.__len__, len in *. rewrite length_app in Hlt.
        simpl in Hlt. lia. }
      rewrite (delitem_absent _ _ Hc) in *.
      unfold LRUCache.__len__, len in *. rewrite length_app in Hlt.
      simpl in Hlt.
      destruct (LRUCache._cache c) as [|[lru entry] rest] eqn:Hd;
        [simpl in *; lia|].
      exists lru, entry, rest. split; [reflexivity|].
      split; [|simpl in *; lia].
      simpl in Hc. destruct (String.eqb_spec key lru) as [|Hne]; [discriminate|].
      unfold wf in Hwf. simpl in Hwf. inversion Hwf as [|? ? Hnotin Hnd]; subst.
      simpl.
      assert (Hl : contains lru (rest ++ [(key, e)]) = false).
      { apply contains_not_In. rewrite keys_app. simpl. intros Hin.
        apply in_app_or in Hin. destruct Hin as [Hin|[Hin|[]]]; congruence. }
      rewrite Hl. destruct (String.eqb_spec lru key); [congruence|]. simpl.
      f_equal. apply filter_none. intros x Hx.
      assert (Hx' : contains x (rest ++ [(key, e)]) = true).
      { apply contains_In. rewrite keys_app. apply in_or_app. now left. }
      rewrite Hx'. now rewrite andb_false_r.
    + left. apply filter_none. intros x Hx.
      destruct (String.eqb_spec x key) as [|Hne]; [reflexivity|]. simpl.
      assert (Hx' : contains x (delitem key (LRUCache._cache c) ++ [(key, e)]) = true).
      { apply contains_In. rewrite keys_app. apply in_or_app. left.
        now apply In_keys_delitem_other. }
      now rewrite Hx'.
Qed.
End Spec.

Local Open Scope string_scope.
Local Open Scope list_scope.

Lemma set_capacity_single_eviction_witness :
  let c := LRUCache.run [LRUCache.Set_ 0 "a" (Some 1%Z); LRUCache.Set_ 1 "b" (Some 2%Z)]
                        (LRUCache.init 2 3600) in
  let c' := LRUCache.set 2 "c" (Some 3%Z) c in
  (LRUCache.__len__ c' <= 2)%Z /\
  (LRUCache.evicted "c" c c' = [] \/
   exists lru entry rest,
     LRUCache._cache c = (lru, entry) :: rest /\
     LRUCache.evicted "c" c c' = [lru] /\
     LRUCache.__len__ c = 2%Z).
Proof.
  apply (@set_capacity_single_eviction Z 2 3600
           [LRUCache.Set_ 0 "a" (Some 1%Z); LRUCache.Set_ 1 "b" (Some 2%Z)]
           2 "c" (Some 3%Z)).
  lia.
Defined.
Section Recency.
Context {V : Type}.
Implicit Types (c : LRUCache.t V) (key k : string).

Lemma get_hit_eq now now' key c entry :
  getitem key (LRUCache._cache c) = Some entry ->
  CacheEntry.is_expired now entry = false ->
  LRUCache.get now now' key c
  = (CacheEntry.value entry,
     LRUCache.count_hit
       (LRUCache.with_cache
          (setitem key (CacheEntry.touch now' entry)
                   (delitem key (LRUCache._cache c) ++ [(key, entry)])) c)).
Proof.
  intros He Hx.
  destruct (get_cases now now' key c) as [Hc|entry' He' Hx'|entry' He' Hx'].
  - apply getitem_absent in Hc. congruence.
  - congruence.
  - congruence.
Qed.

Lemma get_expired_eq now now' key c entry :
  getitem key (LRUCache._cache c) = Some entry ->
  CacheEntry.is_expired now entry = true ->
  LRUCache.get now now' key c
  = (None, LRUCache.count_miss
             (LRUCache.with_cache (delitem key (LRUCache._cache c)) c)).
Proof.
  intros He Hx.
  destruct (get_cases now now' key c) as [Hc|entry' He' Hx'|entry' He' Hx'].
  - apply getitem_absent in Hc. congruence.
  - reflexivity.
  - congruence.
Qed.

(** C2. A [get] that counts as a hit and, for a capacity of at least one,
    every [set] leave the key they use in the last (most recently used)
    position, the other keys keeping their relative order, less the head
    when [set] evicts it.  With [max_size = 2], after [set(a); set(b);
    get(a); set(c)], where the read finds [a] live, exactly [a] and [c]
    are stored, in this order. *)
Theorem use_moves_key_to_mru :
  (forall (max_size ttl : Z) (ops : list (LRUCache.call V))
          (now now' : Z) (key : string),
      let c := LRUCache.run ops (LRUCache.init max_size ttl) in
      let c' := snd (LRUCache.get now now' key c) in
      LRUCache._hits c' = (LRUCache._hits c + 1)%Z ->
      keys (LRUCache._cache c')
      = filter (fun j => negb (String.eqb j key)) (keys (LRUCache._cache c))
        ++ [key]) /\
  (forall (max_size ttl : Z) (ops : list (LRUCache.call V))
          (now : Z) (key : string) (value : option V),
      (1 <= max_size)%Z ->
      let c := LRUCache.run ops (LRUCache.init max_size ttl) in
      let c' := LRUCache.set now key value c in
      let others :=
        filter (fun j => negb (String.eqb j key)) (keys (LRUCache._cache c)) in
      keys (LRUCache._cache c') = others ++ [key] \/
      keys (LRUCache._cache c') = tl others ++ [key]) /\
  (forall (ttl t1 t2 t3 t3' t4 : Z) (v1 v2 v3 : option V),
      (t3 - t1 <= ttl * 1000000)%Z ->
      let c := LRUCache.run
                 [LRUCache.Set_ t1 "a" v1; LRUCache.Set_ t2 "b" v2;
                  LRUCache.Get t3 t3' "a"; LRUCache.Set_ t4 "c" v3]
                 (LRUCache.init 2 ttl) in
      keys (LRUCache._cache c) = ["a"; "c"] /\
      LRUCache.__contains__ "b" c = false /\
      LRUCache.__contains__ "a" c = true /\
      LRUCache.__contains__ "c" c = true).
Proof.
  split; [|split].
  - intros max_size ttl ops now now' key c c' Hhit.
    destruct (run_invariant max_size ttl ops) as [_ _ Hwf]. fold c in Hwf.
    subst c'. clearbody c.
    destruct (get_cases now now' key c) as [Hc|entry He Hx|entry He Hx];
      simpl in *; try lia.
    rewrite keys_hit. now rewrite keys_delitem_wf.
  - intros max_size ttl ops now key value Hms c c' others.
    destruct (run_invariant max_size ttl ops) as [Hm _ Hwf]. fold c in Hm, Hwf.
    subst c' others. clearbody c.
    rewrite set_cache by assumption. cbv zeta.
    rewrite <- keys_delitem_wf by assumption.
    destruct (Z.ltb_spec (LRUCache.max_size c)
                (len (delitem key (LRUCache._cache c)
                      ++ [(key, CacheEntry.new now key value (LRUCache.ttl c))])))
      as [Hlt|Hle].
    + right. unfold len in Hlt. rewrite length_app in Hlt. simpl in Hlt.
      destruct (delitem key (LRUCache._cache c)) as [|b d]; simpl in *; [lia|].
      now rewrite keys_app.
    + left. now rewrite keys_app.
  - intros ttl t1 t2 t3 t3' t4 v1 v2 v3 Hlive.
    unfold LRUCache.run. simpl fold_left.
    assert (E : LRUCache.set t2 "b" v2 (LRUCache.set t1 "a" v1 (LRUCache.init 2 ttl))
                = {| LRUCache.max_size := 2; LRUCache.ttl := ttl;
                     LRUCache._cache := [("a", CacheEntry.new t1 "a" v1 ttl);
                                         ("b", CacheEntry.new t2 "b" v2 ttl)];
                     LRUCache._hits := 0; LRUCache._misses := 0 |})
      by reflexivity.
    rewrite E.
    rewrite get_hit_eq with (entry := CacheEntry.new t1 "a" v1 ttl);
      [| reflexivity
       | unfold CacheEntry.is_expired; simpl CacheEntry.ttl;
         simpl CacheEntry.created_at; apply Z.ltb_ge; lia].
    cbv zeta. repeat split; reflexivity.
Qed.
End Recency.

Lemma use_moves_key_to_mru_witness :
  let ops := [LRUCache.Set_ 0 "a" (Some 1%Z); LRUCache.Set_ 5 "b" (Some 2%Z)] in
  let c := LRUCache.run ops (LRUCache.init 2 3600) in
  keys (LRUCache._cache (snd (LRUCache.get 10 11 "a" c))) = ["b"; "a"] /\
  (keys (LRUCache._cache (LRUCache.set 12 "a" (Some 7%Z) c)) = ["b"; "a"] \/
   keys (LRUCache._cache (LRUCache.set 12 "a" (Some 7%Z) c)) = ["a"]) /\
  let c := LRUCache.run (ops ++ [LRUCache.Get 10 11 "a"; LRUCache.Set_ 20 "c" (Some 3%Z)])
                        (LRUCache.init 2 3600) in
  keys (LRUCache._cache c) = ["a"; "c"] /\
  LRUCache.__contains__ "b" c = false /\
  LRUCache.__contains__ "a" c = true /\
  LRUCache.__contains__ "c" c = true.
Proof.
  destruct (@use_moves_key_to_mru Z) as [Hget [Hset Hscenario]].
  split; [|split].
  - apply (Hget 2%Z 3600%Z
             [LRUCache.Set_ 0 "a" (Some 1%Z); LRUCache.Set_ 5 "b" (Some 2%Z)]
             10%Z 11%Z "a").
    reflexivity.
  - apply (Hset 2%Z 3600%Z
             [LRUCache.Set_ 0 "a" (Some 1%Z); LRUCache.Set_ 5 "b" (Some 2%Z)]
             12%Z "a" (Some 7%Z)).
    lia.
  - apply (Hscenario 3600%Z 0%Z 5%Z 10%Z 11%Z 20%Z (Some 1%Z) (Some 2%Z) (Some 3%Z)).
    lia.
Defined.
Section Expiry.
Context {V : Type}.
Implicit Types (c : LRUCache.t V) (key k : string).

Lemma getitem_Some_contains key (d : OrderedDict.t (CacheEntry.t V)) entry :
  getitem key d = Some entry -> contains key d = true.
Proof.
  intros He. destruct (contains key d) eqn:Hc; [reflexivity|].
  apply getitem_absent in Hc. congruence.
Qed.

(** The keys that [set] and [delete] keep depend on the keys stored and on
    the capacity, not on the entries. *)
Lemma contains_keys key (d1 d2 : OrderedDict.t (CacheEntry.t V)) :
  keys d1 = keys d2 -> contains key d1 = contains key d2.
Proof.
  revert d2. induction d1 as [|[k1 a1] d1 IH]; intros [|[k2 a2] d2]; simpl;
    try discriminate; [reflexivity|].
  intros [= -> Hk]. destruct (String.eqb key k2); auto.
Qed.

Lemma delitem_keys key (d1 d2 : OrderedDict.t (CacheEntry.t V)) :
  keys d1 = keys d2 -> keys (delitem key d1) = keys (delitem key d2).
Proof.
  revert d2. induction d1 as [|[k1 a1] d1 IH]; intros [|[k2 a2] d2]; simpl;
    try discriminate; [reflexivity|].
  intros [= -> Hk]. destruct (String.eqb key k2); simpl; [exact Hk|].
  f_equal. now apply IH.
Qed.

Lemma setitem_keys key (a b : CacheEntry.t V) (d1 d2 : OrderedDict.t (CacheEntry.t V)) :
  keys d1 = keys d2 -> keys (setitem key a d1) = keys (setitem key b d2).
Proof.
  revert d2. induction d1 as [|[k1 a1] d1 IH]; intros [|[k2 a2] d2]; simpl;
    try discriminate; [reflexivity|].
  intros [= -> Hk]. destruct (String.eqb key k2); simpl; f_equal; auto.
Qed.

Lemma set_keys now1 now2 key (v1 v2 : option V) c1 c2 :
  keys (LRUCache._cache c1) = keys (LRUCache._cache c2) ->
  LRUCache.max_size c1 = LRUCache.max_size c2 ->
  keys (LRUCache._cache (LRUCache.set now1 key v1 c1))
  = keys (LRUCache._cache (LRUCache.set now2 key v2 c2)).
Proof.
  intros Hk Hm. unfold LRUCache.set.
  rewrite (contains_keys key _ _ Hk), Hm.
  set (e1 := CacheEntry.new now1 key v1 (LRUCache.ttl c1)).
  set (e2 := CacheEntry.new now2 key v2 (LRUCache.ttl c2)).
  assert (Hd : keys (if contains key (LRUCache._cache c2)
                     then delitem key (LRUCache._cache c1) else LRUCache._cache c1)
               = keys (if contains key (LRUCache._cache c2)
                       then delitem key (LRUCache._cache c2) else LRUCache._cache c2)).
  { destruct (contains key (LRUCache._cache c2)); [now apply delitem_keys | exact Hk]. }
  pose proof (setitem_keys key e1 e2 _ _ Hd) as Hs.
  revert Hs.
  generalize (setitem key e1 (if contains key (LRUCache._cache c2)
                              then delitem key (LRUCache._cache c1)
                              else LRUCache._cache c1)).
  generalize (setitem key e2 (if contains key (LRUCache._cache c2)
                              then delitem key (LRUCache._cache c2)
                              else LRUCache._cache c2)).
  intros d2 d1 Hs.
  assert (Hl : len d1 = len d2) by (rewrite !len_length; now rewrite Hs).
  rewrite Hl. destruct (_ <? _)%Z; [|exact Hs].
  destruct d1 as [|b1 d1], d2 as [|b2 d2]; simpl in *; try discriminate; auto.
  now inversion Hs.
Qed.

(** C6. A [get] that finds the entry of its key expired returns [None],
    counts a miss and no hit, and removes that entry.  A [get] that
    returns a value found a live entry holding it.  Nothing else removes
    an entry for being expired: a [get] leaves the entries of all other
    keys as they are, and the keys that [set] and [delete] keep are the
    same whatever the entries and the clock are. *)
Theorem expired_entry_removed_on_read :
  (forall (max_size ttl : Z) (ops : list (LRUCache.call V))
          (now now' : Z) (key : string) (entry : CacheEntry.t V),
      let c := LRUCache.run ops (LRUCache.init max_size ttl) in
      let c' := snd (LRUCache.get now now' key c) in
      getitem key (LRUCache._cache c) = Some entry ->
      CacheEntry.is_expired now entry = true ->
      fst (LRUCache.get now now' key c) = None /\
      LRUCache._misses c' = (LRUCache._misses c + 1)%Z /\
      LRUCache._hits c' = LRUCache._hits c /\
      LRUCache._cache c' = delitem key (LRUCache._cache c) /\
      LRUCache.__contains__ key c' = false) /\
  (forall c (now now' : Z) (key : string) (v : V),
      fst (LRUCache.get now now' key c) = Some v ->
      exists entry,
        getitem key (LRUCache._cache c) = Some entry /\
        CacheEntry.is_expired now entry = false /\
        CacheEntry.value entry = Some v) /\
  (forall c (now now' : Z) (key k : string),
      k <> key ->
      getitem k (LRUCache._cache (snd (LRUCache.get now now' key c)))
      = getitem k (LRUCache._cache c)) /\
  (forall c1 c2 (now1 now2 : Z) (key : string) (v1 v2 : option V),
      keys (LRUCache._cache c1) = keys (LRUCache._cache c2) ->
      LRUCache.max_size c1 = LRUCache.max_size c2 ->
      keys (LRUCache._cache (LRUCache.set now1 key v1 c1))
      = keys (LRUCache._cache (LRUCache.set now2 key v2 c2))) /\
  (forall c1 c2 (key : string),
      keys (LRUCache._cache c1) = keys (LRUCache._cache c2) ->
      fst (LRUCache.delete key c1) = fst (LRUCache.delete key c2) /\
      keys (LRUCache._cache (snd (LRUCache.delete key c1)))
      = keys (LRUCache._cache (snd (LRUCache.delete key c2)))).
Proof.
  split; [|split; [|split; [|split]]].
  - intros max_size ttl ops now now' key entry c c' He Hx.
    destruct (run_invariant max_size ttl ops) as [_ _ Hwf]. fold c in Hwf.
    subst c'. clearbody c.
    rewrite (get_expired_eq now now' key c He Hx). simpl.
    repeat split. unfold LRUCache.__contains__. simpl.
    now apply delitem_removes.
  - intros c now now' key v Hr.
    destruct (get_cases now now' key c) as [Hc|entry He Hx|entry He Hx];
      simpl in Hr; try discriminate.
    exists entry. auto.
  - intros c now now' key k Hne.
    destruct (get_cases now now' key c) as [Hc|entry He Hx|entry He Hx]; simpl.
    + reflexivity.
    + now apply getitem_delitem_other.
    + rewrite getitem_setitem_other, getitem_app_other by assumption.
      now apply getitem_delitem_other.
  - intros c1 c2 now1 now2 key v1 v2. apply set_keys.
  - intros c1 c2 key Hk. unfold LRUCache.delete.
    rewrite (contains_keys key _ _ Hk).
    destruct (contains key (LRUCache._cache c2)); simpl; split; auto.
    now apply delitem_keys.
Qed.

(** C10. For an entry that is stored and expired, the membership test
    answers [True] and [delete] returns [True], although [get] on the same
    key returns [None]. *)
Theorem membership_ignores_ttl :
  forall c (now now' : Z) (key : string) (entry : CacheEntry.t V),
    getitem key (LRUCache._cache c) = Some entry ->
    CacheEntry.is_expired now entry = true ->
    LRUCache.__contains__ key c = true /\
    fst (LRUCache.get now now' key c) = None /\
    fst (LRUCache.delete key c) = true.
Proof.
  intros c now now' key entry He Hx.
  pose proof (getitem_Some_contains _ _ He) as Hc.
  split; [exact Hc|]. split.
  - now rewrite (get_expired_eq now now' key c He Hx).
  - unfold LRUCache.delete. now rewrite Hc.
Qed.
End Expiry.

Lemma expired_entry_removed_on_read_witness :
  let c := LRUCache.run [LRUCache.Set_ 0 "a" (Some 1%Z); LRUCache.Set_ 9000000 "b" (Some 2%Z)]
                        (LRUCache.init 2 10) in
  let r := LRUCache.get 10000001 10000002 "a" c in
  (fst r = None /\
   LRUCache._misses (snd r) = 1%Z /\
   LRUCache._hits (snd r) = 0%Z /\
   LRUCache._cache (snd r) = delitem "a" (LRUCache._cache c) /\
   LRUCache.__contains__ "a" (snd r) = false) /\
  (exists entry,
      getitem "b" (LRUCache._cache c) = Some entry /\
      CacheEntry.is_expired 10000001 entry = false /\
      CacheEntry.value entry = Some 2%Z) /\
  getitem "b" (LRUCache._cache (snd r)) = getitem "b" (LRUCache._cache c) /\
  keys (LRUCache._cache (LRUCache.set 20000000 "c" (Some 3%Z) c))
  = keys (LRUCache._cache (LRUCache.set 0 "c" None c)).
Proof.
  destruct (@expired_entry_removed_on_read Z)
    as [Hexpired [Hlive [Hother [Hset Hdelete]]]].
  split; [|split; [|split]].
  - apply (Hexpired 2%Z 10%Z
             [LRUCache.Set_ 0 "a" (Some 1%Z); LRUCache.Set_ 9000000 "b" (Some 2%Z)]
             10000001%Z 10000002%Z "a" (CacheEntry.new 0 "a" (Some 1%Z) 10));
      reflexivity.
  - apply (Hlive _ 10000001%Z 10000002%Z "b" 2%Z). reflexivity.
  - apply Hother. discriminate.
  - apply Hset; reflexivity.
Defined.

Lemma membership_ignores_ttl_witness :
  let c := LRUCache.run [LRUCache.Set_ 0 "a" (Some 1%Z)] (LRUCache.init 2 10) in
  LRUCache.__contains__ "a" c = true /\
  fst (LRUCache.get 10000001 10000002 "a" c) = None /\
  fst (LRUCache.delete "a" c) = true.
Proof.
  apply (@membership_ignores_ttl Z _ 10000001%Z 10000002%Z "a"
           (CacheEntry.new 0 "a" (Some 1%Z) 10)); reflexivity.
Defined.
End LRUCacheSpec.

(** ** QueryCache *)
Module QueryCacheSpec.
Import OrderedDict OrderedDictFacts LRUCacheFacts.
Local Open Scope string_scope.
Local Open Scope list_scope.

Section Effects.
Context {V : Type}.

Lemma In_delitem key (b : string * CacheEntry.t V) d :
  In b (delitem key d) -> In b d.
Proof.
  induction d as [|[k a] d IH]; simpl; [tauto|].
  destruct (String.eqb key k); simpl; [auto | intros [E|H]; auto].
Qed.

Lemma getitem_setitem_same key (a : CacheEntry.t V) d :
  getitem key (setitem key a d) = Some a.
Proof.
  induction d as [|[k b] d IH]; simpl.
  - now rewrite String.eqb_refl.
  - destruct (String.eqb key k) eqn:E; simpl; rewrite E; [reflexivity | exact IH].
Qed.

(** What [LRUCache.get] may change: one counter, and the entry of its key. *)
Lemma get_frame (c : LRUCache.t V) (now now' : Z) (key : string) :
  let c' := snd (LRUCache.get now now' key c) in
  LRUCache.max_size c' = LRUCache.max_size c /\
  LRUCache.ttl c' = LRUCache.ttl c /\
  ((LRUCache._hits c' = (LRUCache._hits c + 1)%Z /\
    LRUCache._misses c' = LRUCache._misses c) \/
   (LRUCache._hits c' = LRUCache._hits c /\
    LRUCache._misses c' = (LRUCache._misses c + 1)%Z)) /\
  (forall k, k <> key ->
     getitem k (LRUCache._cache c') = getitem k (LRUCache._cache c)) /\
  filter (fun j => negb (String.eqb j key)) (keys (LRUCache._cache c'))
  = filter (fun j => negb (String.eqb j key)) (keys (LRUCache._cache c)) /\
  (forall k e', getitem k (LRUCache._cache c') = Some e' ->
     exists e, In (k, e) (LRUCache._cache c) /\
               CacheEntry.value e' = CacheEntry.value e /\
               CacheEntry.created_at e' = CacheEntry.created_at e /\
               CacheEntry.ttl e' = CacheEntry.ttl e).
Proof.
  cbv zeta.
  destruct (get_cases now now' key c) as [Hc|entry He Hx|entry He Hx]; simpl.
  - repeat split; auto.
    intros k e' Hk. exists e'. split; [now apply getitem_In | auto].
  - repeat split; auto.
    + intros k Hne. now apply getitem_delitem_other.
    + apply keys_delitem_filter.
    + intros k e' Hk. exists e'. split; [|auto].
      apply getitem_In in Hk. now apply In_delitem in Hk.
  - repeat split; auto.
    + intros k Hne.
      rewrite getitem_setitem_other, getitem_app_other by assumption.
      now apply getitem_delitem_other.
    + rewrite keys_hit, filter_app. simpl. rewrite String.eqb_refl. simpl.
      rewrite app_nil_r. apply keys_delitem_filter.
    + intros k e' Hk. destruct (String.eqb_spec k key) as [->|Hne].
      * rewrite getitem_setitem_same in Hk. injection Hk as <-.
        exists entry. split; [now apply getitem_In | auto].
      * rewrite getitem_setitem_other, getitem_app_other,
          getitem_delitem_other in Hk by assumption.
        exists e'. split; [now apply getitem_In | auto].
Qed.

(** C9, as it holds.  [QueryCache.get] changes nothing when caching is
    disabled.  On an enabled cache it is [LRUCache.get] on the generated
    key: it increments exactly one of the two counters, and may move the
    entry of that key to the end, update its access time and count, or
    remove it when expired; the configuration, the capacity, the ttl, the
    entries of all other keys and their relative order stay as they are,
    and no entry is added and no stored value is changed. *)
Theorem query_get_effects :
  forall (q : QueryCache.t V) (now now' : Z) (query : string)
         (kwargs : list (string * json.value)),
    let r := QueryCache.get now now' query kwargs q in
    let q' := snd r in
    let key := QueryCache._generate_key query kwargs in
    QueryCache.config q' = QueryCache.config q /\
    (CacheConfig.enabled (QueryCache.config q) = false \/ QueryCache.cache q = None ->
     q' = q /\ fst r = None) /\
    (forall c,
        CacheConfig.enabled (QueryCache.config q) = true ->
        QueryCache.cache q = Some c ->
        let c' := snd (LRUCache.get now now' key c) in
        QueryCache.cache q' = Some c' /\
        fst r = fst (LRUCache.get now now' key c) /\
        LRUCache.max_size c' = LRUCache.max_size c /\
        LRUCache.ttl c' = LRUCache.ttl c /\
        ((LRUCache._hits c' = (LRUCache._hits c + 1)%Z /\
          LRUCache._misses c' = LRUCache._misses c) \/
         (LRUCache._hits c' = LRUCache._hits c /\
          LRUCache._misses c' = (LRUCache._misses c + 1)%Z)) /\
        (forall k, k <> key ->
           getitem k (LRUCache._cache c') = getitem k (LRUCache._cache c)) /\
        filter (fun j => negb (String.eqb j key)) (keys (LRUCache._cache c'))
        = filter (fun j => negb (String.eqb j key)) (keys (LRUCache._cache c)) /\
        (forall k e', getitem k (LRUCache._cache c') = Some e' ->
           exists e, In (k, e) (LRUCache._cache c) /\
                     CacheEntry.value e' = CacheEntry.value e /\
                     CacheEntry.created_at e' = CacheEntry.created_at e /\
                     CacheEntry.ttl e' = CacheEntry.ttl e)).
Proof.
  intros q now now' query kwargs. cbv zeta. unfold QueryCache.get.
  destruct (CacheConfig.enabled (QueryCache.config q)) eqn:Hen; simpl.
  - destruct (QueryCache.cache q) as [c|] eqn:Hc.
    + destruct (LRUCache.get now now' (QueryCache._generate_key query kwargs) c)
        as [result c'] eqn:Hg. simpl.
      split; [reflexivity|]. split.
      * intros [H|H]; discriminate.
      * intros c0 _ [= <-]. rewrite Hg. simpl.
        pose proof (get_frame c now now' (QueryCache._generate_key query kwargs)) as F.
        cbv zeta in F. rewrite Hg in F. simpl in F.
        split; [reflexivity|]. split; [reflexivity|]. exact F.
    + simpl. split; [reflexivity|]. split; [auto|]. intros c0 _ H. discriminate.
  - split; [reflexivity|]. split; [auto|]. intros c0 H. discriminate.
Qed.
End Effects.

(** C9, as stated, fails: a [get] on a fresh enabled cache already changes
    it (the miss is counted), and a [get] that hits changes the order of
    the stored keys. *)
Lemma query_get_has_side_effects :
  let q0 := QueryCache.init (V:=Z) None in
  let q2 := QueryCache.set 0 "q2" (Some 2%Z) [] (QueryCache.set 0 "q1" (Some 1%Z) [] q0) in
  snd (QueryCache.get 1 1 "q1" [] q0) <> q0 /\
  option_map (fun c => keys (LRUCache._cache c))
             (QueryCache.cache (snd (QueryCache.get 1 1 "q1" [] q2)))
  <> option_map (fun c => keys (LRUCache._cache c)) (QueryCache.cache q2).
Proof.
  split; vm_compute; intros H; discriminate H.
Qed.

Lemma query_get_effects_witness :
  let q := QueryCache.set 0 "q2" (Some 2%Z) []
             (QueryCache.set 0 "q1" (Some 1%Z) [] (QueryCache.init (V:=Z) None)) in
  let off : QueryCache.t Z :=
    QueryCache.init (Some {| CacheConfig.enabled := false; CacheConfig.ttl := 60;
                             CacheConfig.max_size := 8 |}) in
  (snd (QueryCache.get 1 1 "q1" [] off) = off /\
   fst (QueryCache.get 1 1 "q1" [] off) = None) /\
  exists c c',
    QueryCache.cache q = Some c /\
    QueryCache.cache (snd (QueryCache.get 1 1 "q1" [] q)) = Some c' /\
    fst (QueryCache.get 1 1 "q1" [] q) = Some 1%Z /\
    LRUCache._hits c' = (LRUCache._hits c + 1)%Z.
Proof.
  split.
  - apply (@query_get_effects Z). left. reflexivity.
  - eexists. eexists. split; [reflexivity|].
    destruct (@query_get_effects Z
                (QueryCache.set 0 "q2" (Some 2%Z) []
                   (QueryCache.set 0 "q1" (Some 1%Z) [] (QueryCache.init (V:=Z) None)))
                1%Z 1%Z "q1" []) as [_ [_ Hon]].
    destruct (Hon _ eq_refl eq_refl) as [Hc [Hr _]].
    split; [exact Hc|]. split; [rewrite Hr|]; vm_compute; reflexivity.
Defined.
End QueryCacheSpec.

(** ** Strings, JSON text and sorting *)
Module jsonFacts.
Import json.
Local Open Scope string_scope.

Lemma append_nil_r (s : string) : s ++ "" = s.
Proof. induction s as [|c s IH]; simpl; [reflexivity | now rewrite IH]. Qed.

Lemma append_assoc (s t u : string) : (s ++ t) ++ u = s ++ (t ++ u).
Proof. induction s as [|c s IH]; simpl; [reflexivity | now rewrite IH]. Qed.

Lemma length_append (s t : string) :
  String.length (s ++ t) = (String.length s + String.length t)%nat.
Proof. induction s as [|c s IH]; simpl; [reflexivity | now rewrite IH]. Qed.

Lemma append_inv_head (s t u : string) : s ++ t = s ++ u -> t = u.
Proof. induction s as [|c s IH]; simpl; [auto | intros [= H]; auto]. Qed.

Lemma append_inv_tail (s t u : string) : s ++ u = t ++ u -> s = t.
Proof.
  revert t. induction s as [|c s IH]; intros [|d t] H; simpl in *.
  - reflexivity.
  - apply (f_equal String.length) in H. simpl in H.
    rewrite length_append in H. lia.
  - apply (f_equal String.length) in H. simpl in H.
    rewrite length_append in H. lia.
  - injection H as -> H. f_equal. now apply IH.
Qed.

(** Reading back one escaped character *)
Lemma unescape_escape_char (c : ascii) (r : string) :
  unescape_char (escape_char c ++ r) = Some (c, r).
Proof.
  destruct c as [b0 b1 b2 b3 b4 b5 b6 b7].
  destruct b0, b1, b2, b3, b4, b5, b6, b7; reflexivity.
Qed.

Lemma escape_inj (s t : string) : escape s = escape t -> s = t.
Proof.
  revert t. induction s as [|c s IH]; intros [|d t] H; simpl in H.
  - reflexivity.
  - apply (f_equal unescape_char) in H.
    rewrite unescape_escape_char in H. discriminate.
  - apply (f_equal unescape_char) in H.
    rewrite unescape_escape_char in H. discriminate.
  - apply (f_equal unescape_char) in H.
    rewrite !unescape_escape_char in H. injection H as -> H.
    f_equal. now apply IH.
Qed.

Lemma encode_str_inj (s t : string) : encode_str s = encode_str t -> s = t.
Proof.
  unfold encode_str. intros H. apply append_inv_head in H.
  apply append_inv_tail in H. now apply escape_inj.
Qed.

Lemma leb_iff (s t : string) :
  String.leb s t = true <-> String_as_OT.lt s t \/ s = t.
Proof.
  unfold String.leb. destruct (String.compare s t) eqn:E.
  - split; [|reflexivity]. intros _. right. now apply String_as_OT.cmp_eq.
  - split; [|reflexivity]. intros _. left. now apply String_as_OT.cmp_lt.
  - split; [discriminate|]. intros [H|H].
    + apply String_as_OT.cmp_lt in H. unfold String_as_OT.cmp in H. congruence.
    + apply String_as_OT.cmp_eq in H. unfold String_as_OT.cmp in H. congruence.
Qed.

Lemma leb_trans (s t u : string) :
  String.leb s t = true -> String.leb t u = true -> String.leb s u = true.
Proof.
  rewrite !leb_iff. intros [H1| ->] [H2| ->]; auto.
  left. eapply String_as_OT.lt_trans; eauto.
Qed.

Lemma insert_item_perm kv l : Permutation (kv :: l) (insert_item kv l).
Proof.
  induction l as [|kv' l IH]; simpl; [reflexivity|].
  destruct (String.leb (fst kv) (fst kv')); [reflexivity|].
  rewrite perm_swap. now apply perm_skip.
Qed.

Lemma sort_items_perm l : Permutation l (sort_items l).
Proof.
  induction l as [|kv l IH]; simpl; [reflexivity|].
  rewrite <- insert_item_perm. now apply perm_skip.
Qed.

Lemma insert_item_sorted kv l :
  StronglySorted item_le l -> StronglySorted item_le (insert_item kv l).
Proof.
  induction 1 as [|kv' l Hs IH Hall]; simpl.
  - repeat constructor.
  - destruct (String.leb (fst kv) (fst kv')) eqn:E.
    + constructor; [now constructor|].
      constructor; [exact E|].
      eapply Forall_impl; [|exact Hall].
      intros a Ha. unfold item_le in *. eapply leb_trans; eauto.
    + constructor; [exact IH|].
      assert (Hle : item_le kv' kv).
      { unfold item_le. destruct (String.leb_total (fst kv) (fst kv')); congruence. }
      rewrite Forall_forall in *. intros a Ha.
      apply Permutation_in with (l' := kv :: l) in Ha;
        [|symmetry; apply insert_item_perm].
      destruct Ha as [<-|Ha]; auto.
Qed.

Lemma sort_items_sorted l : StronglySorted item_le (sort_items l).
Proof.
  induction l as [|kv l IH]; simpl; [constructor | now apply insert_item_sorted].
Qed.

(** Two sorted lists with the same items, whose keys are distinct, are
    equal. *)
Lemma sorted_unique l1 l2 :
  StronglySorted item_le l1 -> StronglySorted item_le l2 ->
  Permutation l1 l2 -> NoDup (map fst l1) -> l1 = l2.
Proof.
  intros H1. revert l2. induction H1 as [|a l1 Hs1 IH Hall1]; intros l2 H2 Hp Hnd.
  - apply Permutation_nil in Hp. now subst.
  - destruct H2 as [|b l2 Hs2 Hall2].
    + symmetry in Hp. apply Permutation_nil in Hp. discriminate.
    + simpl in Hnd. inversion Hnd as [|? ? Hnotin Hnd']; subst.
      assert (Hab : a = b).
      { assert (Hb : In b (a :: l1))
          by (eapply Permutation_in; [symmetry; exact Hp | now left]).
        destruct Hb as [Hb|Hb]; [exact Hb|].
        assert (Ha : In a (b :: l2))
          by (eapply Permutation_in; [exact Hp | now left]).
        destruct Ha as [Ha|Ha]; [now symmetry|].
        rewrite Forall_forall in Hall1, Hall2.
        pose proof (Hall1 _ Hb) as Hle1. pose proof (Hall2 _ Ha) as Hle2.
        exfalso. apply Hnotin.
        rewrite (String.leb_antisym _ _ Hle1 Hle2).
        now apply in_map. }
      subst b. f_equal. apply IH; auto.
      now apply Permutation_cons_inv in Hp.
Qed.

Lemma sort_items_permutation l1 l2 :
  Permutation l1 l2 -> NoDup (map fst l1) -> sort_items l1 = sort_items l2.
Proof.
  intros Hp Hnd. apply sorted_unique; try apply sort_items_sorted.
  - now rewrite <- !sort_items_perm.
  - eapply Permutation_NoDup; [|exact Hnd].
    apply Permutation_map, sort_items_perm.
Qed.

(** The place where an item goes depends on its key only. *)
Lemma insert_item_split (k : string) l :
  exists pre post, forall x, insert_item (k, x) l = (pre ++ (k, x) :: post)%list.
Proof.
  induction l as [|kv' l (pre & post & IH)]; simpl.
  - exists [], []. reflexivity.
  - destruct (String.leb k (fst kv')).
    + exists [], (kv' :: l). reflexivity.
    + exists (kv' :: pre), post. intros x. now rewrite IH.
Qed.

Lemma concat_split (sep : string) (l1 l2 : list string) :
  exists a b, forall s, String.concat sep (l1 ++ s :: l2)%list = a ++ s ++ b.
Proof.
  induction l1 as [|x l1 (a & b & IH)].
  - destruct l2 as [|y l2].
    + exists "", "". intros s. simpl. now rewrite append_nil_r.
    + exists "", (sep ++ String.concat sep (y :: l2)). reflexivity.
  - exists (x ++ sep ++ a), b. intros s.
    change ((x :: l1) ++ s :: l2)%list with (x :: (l1 ++ s :: l2))%list.
    assert (E : String.concat sep (x :: (l1 ++ s :: l2))%list
                = x ++ sep ++ String.concat sep (l1 ++ s :: l2)%list).
    { destruct l1; reflexivity. }
    rewrite E, IH. now rewrite !append_assoc.
Qed.
End jsonFacts.

(** ** QueryCache keys *)
Module QueryCacheKeySpec.
Import OrderedDict OrderedDictFacts jsonFacts.
Local Open Scope string_scope.

Lemma decode_encode_char (c : ascii) (r : list N) :
  decode_char (str_encode (String c EmptyString) ++ r)%list = Some (c, r).
Proof.
  destruct c as [b0 b1 b2 b3 b4 b5 b6 b7].
  destruct b0, b1, b2, b3, b4, b5, b6, b7; reflexivity.
Qed.

Lemma str_encode_cons (c : ascii) (s : string) :
  str_encode (String c s) = (str_encode (String c EmptyString) ++ str_encode s)%list.
Proof.
  unfold str_encode. simpl. now rewrite app_nil_r.
Qed.

Lemma str_encode_inj (s t : string) : str_encode s = str_encode t -> s = t.
Proof.
  revert t. induction s as [|c s IH]; intros [|d t] H.
  - reflexivity.
  - rewrite str_encode_cons in H. apply (f_equal decode_char) in H.
    rewrite decode_encode_char in H. discriminate.
  - rewrite str_encode_cons in H. apply (f_equal decode_char) in H.
    rewrite decode_encode_char in H. discriminate.
  - rewrite (str_encode_cons c s), (str_encode_cons d t) in H.
    apply (f_equal decode_char) in H.
    rewrite !decode_encode_char in H. injection H as -> H.
    f_equal. now apply IH.
Qed.

Lemma distinct_NoDup (names : list string) :
  QueryCache.distinct names = true -> NoDup names.
Proof.
  induction names as [|n names IH]; simpl; [constructor|].
  intros H. apply andb_prop in H. destruct H as [Hn Hd].
  constructor; [|auto].
  intros Hin. apply negb_true_iff in Hn.
  assert (existsb (String.eqb n) names = true); [|congruence].
  apply existsb_exists. exists n. split; [exact Hin | apply String.eqb_refl].
Qed.

Lemma fold_setitem_fresh (kwargs acc : list (string * json.value)) :
  NoDup (keys acc ++ keys kwargs)%list ->
  fold_left (fun d kv => setitem (fst kv) (snd kv) d) kwargs acc
  = (acc ++ kwargs)%list.
Proof.
  revert acc. induction kwargs as [|[k v] kwargs IH]; intros acc Hnd; simpl.
  - now rewrite app_nil_r.
  - rewrite setitem_absent.
    + rewrite IH; [now rewrite <- app_assoc|].
      rewrite keys_app. simpl. now rewrite <- app_assoc.
    + apply contains_not_In. intros Hin. simpl in Hnd.
      apply NoDup_remove_2 in Hnd. apply Hnd. apply in_or_app. now left.
Qed.

Lemma key_data_fresh (query : string) (kwargs : list (string * json.value)) :
  NoDup ("query" :: keys kwargs) ->
  QueryCache.key_data query kwargs = ("query", json.Str query) :: kwargs.
Proof.
  intros Hnd. unfold QueryCache.key_data. now rewrite fold_setitem_fresh.
Qed.

Lemma dumps_Dict (items : list (string * json.value)) :
  json.dumps (json.Dict items)
  = "{" ++ String.concat ", "
             (map json.render_item
                  (json.sort_items
                     (map (fun kv => (fst kv, json.dumps (snd kv))) items)))
        ++ "}".
Proof. reflexivity. Qed.

(** The text that is hashed has the query in one place, between two
    texts that do not depend on it. *)
Lemma key_string_split (kwargs : list (string * json.value)) :
  NoDup ("query" :: keys kwargs) ->
  exists a b, forall query,
    QueryCache.key_string query kwargs = a ++ json.encode_str query ++ b.
Proof.
  intros Hnd. unfold QueryCache.key_string.
  destruct (insert_item_split "query"
              (json.sort_items
                 (map (fun kv => (fst kv, json.dumps (snd kv))) kwargs)))
    as (pre & post & Hins).
  destruct (concat_split ", " (map json.render_item pre)
                         (map json.render_item post)) as (a & b & Hcat).
  exists ("{" ++ a ++ json.encode_str "query" ++ ": "), (b ++ "}").
  intros query. rewrite key_data_fresh by assumption. rewrite dumps_Dict.
  change (map (fun kv => (fst kv, json.dumps (snd kv)))
              (("query", json.Str query) :: kwargs))
    with (("query", json.encode_str query)
            :: map (fun kv => (fst kv, json.dumps (snd kv))) kwargs).
  change (json.sort_items (("query", json.encode_str query)
            :: map (fun kv => (fst kv, json.dumps (snd kv))) kwargs))
    with (json.insert_item ("query", json.encode_str query)
            (json.sort_items
               (map (fun kv => (fst kv, json.dumps (snd kv))) kwargs))).
  rewrite Hins, map_app. simpl map. rewrite Hcat.
  unfold json.render_item at 1. cbn [fst snd].
  now rewrite !append_assoc.
Qed.


End QueryCacheKeySpec.

(** ** Retry with exponential backoff *)
Module retrySpec.
Import exceptions retry.

Section Backoff.
Variables (base_delay max_delay exponential_base : Q).

Lemma backoff_nonneg (attempt : Z) :
  0 <= base_delay -> 0 <= max_delay -> 0 <= exponential_base ->
  0 <= exponential_backoff attempt base_delay max_delay exponential_base.
Proof.
  intros Hb Hm He. unfold exponential_backoff. apply Q.min_glb; [|exact Hm].
  apply Qmult_le_0_compat; [exact Hb | now apply Qpower_0_le].
Qed.

Lemma backoff_capped (attempt : Z) :
  exponential_backoff attempt base_delay max_delay exponential_base <= max_delay.
Proof. apply Q.le_min_r. Qed.

Lemma backoff_monotone (attempt attempt' : Z) :
  0 <= base_delay -> 1 <= exponential_base -> (attempt <= attempt')%Z ->
  exponential_backoff attempt base_delay max_delay exponential_base
  <= exponential_backoff attempt' base_delay max_delay exponential_base.
Proof.
  intros Hb He Ha. unfold exponential_backoff. apply Q.min_le_compat_r.
  rewrite !(Qmult_comm base_delay). apply Qmult_le_compat_r; [|exact Hb].
  now apply Qpower_le_compat_l.
Qed.
End Backoff.

Section Retry.
Variables W R : Type.
Variable time_sleep : Q -> W -> W.
Variable p : policy W.
Variable func : operation W R.

Lemma calls_app (tr1 tr2 : list (event R)) :
  calls (tr1 ++ tr2) = calls tr1 ++ calls tr2.
Proof. apply flat_map_app. Qed.

Lemma sleeps_app (tr1 tr2 : list (event R)) :
  sleeps (tr1 ++ tr2) = sleeps tr1 ++ sleeps tr2.
Proof. apply flat_map_app. Qed.

Lemma calls_failed_attempt (k : nat) (e : exc) :
  calls (failed_attempt (R:=R) p k e) = [Raise e].
Proof. unfold failed_attempt. destruct (on_retry p); reflexivity. Qed.

Lemma sleeps_failed_attempt (k : nat) (e : exc) :
  sleeps (failed_attempt (R:=R) p k e)
  = [exponential_backoff (Z.of_nat k) (retry.base_delay p) (retry.max_delay p)
                         (retry.exponential_base p)].
Proof. unfold failed_attempt. destruct (on_retry p); reflexivity. Qed.

Lemma failing_trace_cons (start : nat) (e : exc) (es : list exc) (e_last : exc) :
  failing_trace (R:=R) p start (e :: es) e_last
  = failed_attempt p start e ++ failing_trace p (S start) es e_last.
Proof. unfold failing_trace. simpl. now rewrite <- app_assoc. Qed.

Lemma calls_failing_trace (start : nat) (es : list exc) (e_last : exc) :
  calls (failing_trace (R:=R) p start es e_last) = map Raise es ++ [Raise e_last].
Proof.
  revert start. induction es as [|e es IH]; intros start; [reflexivity|].
  rewrite failing_trace_cons, calls_app, calls_failed_attempt, IH. reflexivity.
Qed.

Lemma sleeps_failing_trace (start : nat) (es : list exc) (e_last : exc) :
  sleeps (failing_trace (R:=R) p start es e_last)
  = map (fun k => exponential_backoff (Z.of_nat k) (retry.base_delay p)
                    (retry.max_delay p) (retry.exponential_base p))
        (seq start (List.length es)).
Proof.
  revert start. induction es as [|e es IH]; intros start; [reflexivity|].
  rewrite failing_trace_cons, sleeps_app, sleeps_failed_attempt, IH. reflexivity.
Qed.

Hypothesis Hfails : always_fails p func.
Hypothesis Hcallback : callback_returns p.
Hypothesis Hbase : 0 <= retry.base_delay p.
Hypothesis Hmax : 0 <= retry.max_delay p.
Hypothesis Hexp : 1 < retry.exponential_base p.

(** One iteration of the loop *)
Lemma attempts_S (n : nat) (attempt : Z) (last_exception : option exc) (w : W) :
  attempts time_sleep p func (S n) attempt last_exception w
  = let (r, w1) := func w in
    match r with
    | Return a => (Return (Some a), w1, [Called r])
    | Raise e =>
        if isinstance e (exceptions p) then
          if (attempt =? max_retries p)%Z then (Raise e, w1, [Called r])
          else
            let delay := exponential_backoff attempt (retry.base_delay p)
                           (retry.max_delay p) (retry.exponential_base p) in
            let '(c, w2, notified) :=
              match on_retry p with
              | Some callback =>
                  let (c, w2) := callback e attempt w1 in
                  (c, w2, [Notified e attempt])
              | None => (Return tt, w1, [])
              end in
            match c with
            | Raise e' => (Raise e', w2, Called r :: notified)
            | Return _ =>
                match sleep time_sleep delay w2 with
                | (Raise e', w3) => (Raise e', w3, Called r :: notified)
                | (Return _, w3) =>
                    let '(res, w4, tr) :=
                      attempts time_sleep p func n (attempt + 1) (Some e) w3 in
                    (res, w4, Called r :: notified ++ Slept delay :: tr)
                end
            end
        else (Raise e, w1, [Called r])
    end.
Proof. reflexivity. Qed.

(** The loop, entered at attempt [start] with [S n] iterations left of
    which the last one is attempt [max_retries]. *)
Lemma attempts_exhausted (n start : nat) (last_exception : option exc) (w : W) :
  (Z.of_nat start + Z.of_nat n = max_retries p)%Z ->
  exists es e_last w',
    attempts time_sleep p func (S n) (Z.of_nat start) last_exception w
    = (Raise e_last, w', failing_trace p start es e_last) /\
    List.length es = n /\
    Forall (fun e => isinstance e (exceptions p) = true) (es ++ [e_last]).
Proof.
  revert start last_exception w.
  induction n as [|n IH]; intros start last_exception w Hn.
  - destruct (Hfails w) as (e & w1 & Hf & He).
    exists [], e, w1. rewrite attempts_S, Hf, He.
    replace (Z.of_nat start =? max_retries p)%Z with true
      by (symmetry; apply Z.eqb_eq; lia).
    repeat split. repeat constructor. exact He.
  - destruct (Hfails w) as (e & w1 & Hf & He).
    assert (Hd : Qle_bool 0 (exponential_backoff (Z.of_nat start)
                               (retry.base_delay p) (retry.max_delay p)
                               (retry.exponential_base p)) = true).
    { apply Qle_bool_iff. apply backoff_nonneg; auto.
      apply Qlt_le_weak. eapply Qlt_trans; [|exact Hexp]. reflexivity. }
    assert (Hs : (Z.of_nat start + 1 = Z.of_nat (S start))%Z) by lia.
    rewrite attempts_S, Hf, He.
    replace (Z.of_nat start =? max_retries p)%Z with false
      by (symmetry; apply Z.eqb_neq; lia).
    cbv zeta. rewrite Hs.
    assert (Hstep : forall w2,
               exists es e_last w',
                 (let '(res, w4, tr) :=
                    attempts time_sleep p func (S n) (Z.of_nat (S start)) (Some e)
                             (time_sleep
                                (exponential_backoff (Z.of_nat start)
                                   (retry.base_delay p) (retry.max_delay p)
                                   (retry.exponential_base p)) w2) in
                  (res, w4,
                   Called (Raise e)
                   :: match on_retry p with
                      | Some _ => [Notified e (Z.of_nat start)]
                      | None => []
                      end
                   ++ Slept (exponential_backoff (Z.of_nat start)
                               (retry.base_delay p) (retry.max_delay p)
                               (retry.exponential_base p)) :: tr))
                 = (Raise e_last, w', failing_trace p start es e_last) /\
                 List.length es = S n /\
                 Forall (fun e => isinstance e (exceptions p) = true)
                        (es ++ [e_last])).
    { intros w2.
      destruct (IH (S start) (Some e)
                   (time_sleep
                      (exponential_backoff (Z.of_nat start)
                         (retry.base_delay p) (retry.max_delay p)
                         (retry.exponential_base p)) w2))
        as (es & e_last & w' & Ha & Hl & Hr); [lia|].
      rewrite Ha. exists (e :: es), e_last, w'.
      rewrite failing_trace_cons. unfold failed_attempt.
      split; [|split; [simpl; now rewrite Hl | now constructor]].
      f_equal. simpl. now rewrite <- app_assoc. }
    unfold callback_returns in Hcallback.
    destruct (on_retry p) as [callback|].
    + specialize (Hcallback e (Z.of_nat start) w1).
      destruct (callback e (Z.of_nat start) w1) as [c w2]. simpl in Hcallback.
      subst c. unfold sleep. rewrite Hd. apply Hstep.
    + unfold sleep. rewrite Hd. apply Hstep.
Qed.
End Retry.


(** C8. When a call of the wrapped function raises a failure that is not
    of a retried class, the wrapper raises that failure at once: this was
    the only call, and there is no callback and no sleep.  The same holds
    of the loop at any later attempt. *)
Theorem non_retryable_propagates :
  forall (W R : Type) (time_sleep : Q -> W -> W) (p : policy W)
         (func : operation W R) (w w' : W) (e : exc),
    (0 <= max_retries p)%Z ->
    func w = (Raise e, w') ->
    isinstance e (exceptions p) = false ->
    retry_with_exponential_backoff time_sleep p func w
    = (Raise e, w', [Called (Raise e)]) /\
    (forall (n : nat) (attempt : Z) (last_exception : option exc),
        attempts time_sleep p func (S n) attempt last_exception w
        = (Raise e, w', [Called (Raise e)])).
Proof.
  intros W R time_sleep p func w w' e Hn Hf He.
  assert (Hloop : forall (n : nat) (attempt : Z) (last_exception : option exc),
             attempts time_sleep p func (S n) attempt last_exception w
             = (Raise e, w', [Called (Raise e)])).
  { intros n attempt last_exception. cbn [attempts]. now rewrite Hf, He. }
  split; [|exact Hloop].
  unfold retry_with_exponential_backoff.
  replace (Z.to_nat (max_retries p + 1)) with (S (Z.to_nat (max_retries p)))
    by lia.
  apply Hloop.
Qed.


Lemma non_retryable_propagates_witness :
  let p := retry_on_timeout Q 3 1 in
  let func : operation Q Z := fun w => (Raise value_error, w) in
  retry_with_exponential_backoff Qplus p func 0
  = (Raise value_error, 0, [Called (Raise value_error)]).
Proof.
  intros p func.
  apply (@non_retryable_propagates Q Z Qplus p func 0 0 value_error).
  - simpl. lia.
  - reflexivity.
  - reflexivity.
Defined.
End retrySpec.

(** ** CircuitBreaker *)
Module CircuitBreakerSpec.
Import exceptions retry.

Section Breaker.
Variables W R : Type.
Variable time_time : W -> Q.

(** What every use preserves: a breaker that is not closed has counted at
    least [failure_threshold] failures. *)
Lemma apply_use_tripped (cb : CircuitBreaker) (u : use W R) :
  tripped cb -> tripped (apply_use time_time cb u).
Proof.
  unfold tripped. intros Hinv. destruct u as [func w|]; simpl; [|now left].
  unfold call.
  assert (Hgate : forall cb1,
             tripped cb1 -> state cb1 <> open ->
             tripped (snd (fst (fst
               (let (r, w1) := func w in
                match r with
                | Return _ => (r, _on_success cb1, w1, [Called r])
                | Raise e =>
                    if isinstance e (expected_exceptions cb1)
                    then (r, _on_failure (time_time w1) cb1, w1, [Called r])
                    else (r, cb1, w1, [Called r])
                end))))).
  { intros cb1 H1 Hno. unfold tripped in *.
    destruct (func w) as [[a|e] w1]; simpl.
    - unfold _on_success. destruct (state cb1) eqn:Hs; simpl; auto.
      congruence.
    - destruct (isinstance e (expected_exceptions cb1)); simpl; [|exact H1].
      unfold _on_failure. simpl.
      destruct (Z.leb_spec (failure_threshold cb1) (failure_count cb1 + 1));
        simpl; [right; assumption|].
      destruct H1 as [H1|H1]; [now left | lia]. }
  destruct (state cb) eqn:Hs.
  - apply Hgate; [|congruence]. unfold tripped. now left.
  - destruct (_should_attempt_reset (time_time w) cb).
    + apply Hgate; [|simpl; congruence]. unfold tripped. simpl. right.
      destruct Hinv as [Hinv|Hinv]; [congruence | exact Hinv].
    + simpl. unfold tripped. right.
      destruct Hinv as [Hinv|Hinv]; [congruence | exact Hinv].
  - apply Hgate; [|congruence]. unfold tripped. right.
    destruct Hinv as [Hinv|Hinv]; [congruence | exact Hinv].
Qed.

Lemma after_tripped (uses : list (use W R)) (cb : CircuitBreaker) :
  tripped cb -> tripped (after time_time uses cb).
Proof.
  unfold after. revert cb.
  induction uses as [|u uses IH]; simpl; intros cb H; [exact H|].
  apply IH. now apply apply_use_tripped.
Qed.

(** C4. Take a breaker, created and then used in any way, that is open,
    and call it once [recovery_timeout] has elapsed since the last counted
    failure.  The call is the call of the same breaker in state
    [half_open]: the function is called, once.  If it returns, the breaker
    is closed with [failure_count = 0]; if it raises a guarded failure,
    the breaker is open again, the failure counted and timed; any other
    failure leaves the breaker half open. *)
Theorem open_breaker_recovery :
  forall (threshold : Z) (timeout : Q) (expected : list cls)
         (uses : list (use W R)) (func : operation W R) (w : W) (t : Q),
    let cb := after time_time uses (init threshold timeout expected) in
    state cb = open ->
    last_failure_time cb = Some t ->
    recovery_timeout cb <= time_time w - t ->
    call time_time func cb w = call time_time func (with_state half_open cb) w /\
    exists cb',
      call time_time func cb w
      = (fst (func w), cb', snd (func w), [Called (fst (func w))]) /\
      match fst (func w) with
      | Return _ => state cb' = closed /\ failure_count cb' = 0%Z
      | Raise e =>
          if isinstance e (expected_exceptions cb)
          then state cb' = open /\
               failure_count cb' = (failure_count cb + 1)%Z /\
               last_failure_time cb' = Some (time_time (snd (func w)))
          else cb' = with_state half_open cb
      end.
Proof.
  intros threshold timeout expected uses func w t cb Hopen Hlast Helapsed.
  assert (Hinv : tripped cb).
  { apply after_tripped. unfold tripped. now left. }
  destruct Hinv as [Hinv|Hinv]; [congruence|].
  clearbody cb.
  assert (Hreset : _should_attempt_reset (time_time w) cb = true).
  { unfold _should_attempt_reset. rewrite Hlast. now apply Qle_bool_iff. }
  unfold call. rewrite Hopen, Hreset. simpl state.
  split; [reflexivity|].
  destruct (func w) as [[a|e] w1]; simpl.
  - eexists. split; [reflexivity|]. split; reflexivity.
  - destruct (isinstance e (expected_exceptions cb)).
    + eexists. split; [reflexivity|]. unfold _on_failure. simpl.
      destruct (Z.leb_spec (failure_threshold cb) (failure_count cb + 1));
        simpl; [auto | lia].
    + eexists. split; reflexivity.
Qed.

(** C5, as it holds.  An open breaker called before [recovery_timeout]
    has elapsed does not call the function and stays as it is.  It raises
    an exception of the class [Exception] itself, whose message carries
    the configured [recovery_timeout]. *)
Theorem open_breaker_rejects :
  forall (cb : CircuitBreaker) (func : operation W R) (w : W) (t : Q),
    state cb = open ->
    last_failure_time cb = Some t ->
    time_time w - t < recovery_timeout cb ->
    call time_time func cb w = (Raise (circuit_open cb), cb, w, []) /\
    exc_class (circuit_open cb) = Exception /\
    seconds_carried (circuit_open cb) = [recovery_timeout cb].
Proof.
  intros cb func w t Hopen Hlast Hearly.
  assert (Hreset : _should_attempt_reset (time_time w) cb = false).
  { unfold _should_attempt_reset. rewrite Hlast.
    destruct (Qle_bool (recovery_timeout cb) (time_time w - t)) eqn:E;
      [|reflexivity].
    apply Qle_bool_iff in E. exfalso. eapply Qlt_irrefl.
    eapply Qlt_le_trans; eauto. }
  unfold call. rewrite Hopen, Hreset. repeat split.
Qed.
End Breaker.

(** C5, as stated, fails.  The breaker opened at time 100 and is called at
    time 130, when 30 s of the cooldown remain.  The exception it raises
    carries 60, the whole timeout, and it is an instance of [Exception]
    like an upstream failure: the wrapped function raising this very
    exception through a closed breaker gives the caller the same failure,
    and a handler for [Exception] catches both. *)
Lemma open_rejection_not_distinct :
  let cb := opened_at_100 in
  let now : Q := 130 in
  let remaining := recovery_timeout cb - (now - 100) in
  exists e,
    call (fun w : Q => w) returning cb now = (Raise e, cb, now, []) /\
    seconds_carried e = [60] /\
    ~ 60 == remaining /\
    exc_class e = Exception /\
    isinstance e [Exception] = true /\
    fst (fst (fst (call (fun w : Q => w) (fun w => (@Raise Z e, w))
                        (init 3 60 [Exception]) now))) = Raise e.
Proof.
  eexists. split; [vm_compute; reflexivity|].
  split; [reflexivity|]. split; [vm_compute; discriminate|].
  split; [reflexivity|]. split; reflexivity.
Qed.

Lemma open_breaker_recovery_witness :
  let cb := opened_at_100 in
  call (fun w : Q => w) returning cb 160
  = call (fun w : Q => w) returning (with_state half_open cb) 160 /\
  exists cb',
    call (fun w : Q => w) returning cb 160
    = (Return 7%Z, cb', 160, [Called (Return 7%Z)]) /\
    state cb' = closed /\ failure_count cb' = 0%Z.
Proof.
  apply (@open_breaker_recovery Q Z (fun w => w) 3 60 [Exception]
           [Call failing 98; Call failing 99; Call failing 100]
           returning 160 100).
  - reflexivity.
  - reflexivity.
  - vm_compute. discriminate.
Defined.

Lemma open_breaker_rejects_witness :
  call (fun w : Q => w) returning opened_at_100 130
  = (Raise (circuit_open opened_at_100), opened_at_100, 130, []) /\
  exc_class (circuit_open opened_at_100) = Exception /\
  seconds_carried (circuit_open opened_at_100) = [recovery_timeout opened_at_100].
Proof.
  apply (@open_breaker_rejects Q Z (fun w => w) opened_at_100 returning 130 100).
  - reflexivity.
  - reflexivity.
  - reflexivity.
Defined.
End CircuitBreakerSpec.

(** * Further properties *)

(** ** LRUCache: writes, reads, deletions and counters *)
Module LRUCacheExtra.
Import OrderedDict OrderedDictFacts LRUCacheFacts.
Local Open Scope string_scope.
Local Open Scope list_scope.
Local Open Scope Z_scope.

Section Extra.
Context {V : Type}.
Implicit Types (c : LRUCache.t V) (key k : string).

Lemma getitem_snoc_absent key (e : CacheEntry.t V) d :
  contains key d = false -> getitem key (d ++ [(key, e)]) = Some e.
Proof.
  induction d as [|[k a] d IH]; simpl.
  - now rewrite String.eqb_refl.
  - destruct (String.eqb key k); [discriminate | exact IH].
Qed.

(** The capacity bound, for any capacity: a cache never holds more than
    [max 0 max_size] entries. *)
Lemma exec_capacity_any c op :
  wf (LRUCache._cache c) ->
  LRUCache.__len__ c <= Z.max 0 (LRUCache.max_size c) ->
  LRUCache.__len__ (LRUCache.exec c op) <= Z.max 0 (LRUCache.max_size c).
Proof.
  intros Hwf Hcap.
  destruct (Z.le_gt_cases 0 (LRUCache.max_size c)) as [Hms|Hms].
  - rewrite Z.max_r in * by assumption. now apply exec_capacity.
  - rewrite Z.max_l in * by lia. unfold LRUCache.__len__ in *.
    assert (Hnil : LRUCache._cache c = []).
    { destruct (LRUCache._cache c); [reflexivity|]. unfold len in Hcap.
      simpl in Hcap. lia. }
    destruct op as [now now' key|now key value|key|]; simpl.
    + unfold LRUCache.get. rewrite Hnil. simpl. rewrite Hnil. reflexivity.
    + rewrite set_cache by assumption. rewrite Hnil. simpl.
      destruct (Z.ltb_spec (LRUCache.max_size c) (len [(key, CacheEntry.new now key value (LRUCache.ttl c))]));
        [reflexivity|]. unfold len in *. simpl in *. lia.
    + unfold LRUCache.delete. rewrite Hnil. simpl. rewrite Hnil. reflexivity.
    + reflexivity.
Qed.

Lemma run_capacity_any max_size ttl ops :
  LRUCache.__len__ (LRUCache.run ops (LRUCache.init (V:=V) max_size ttl))
  <= Z.max 0 max_size.
Proof.
  unfold LRUCache.run.
  pose proof (init_invariant (V:=V) max_size ttl) as H0.
  assert (C0 : LRUCache.__len__ (LRUCache.init (V:=V) max_size ttl)
               <= Z.max 0 max_size) by (change (0 <= Z.max 0 max_size); lia).
  revert H0 C0. generalize (LRUCache.init (V:=V) max_size ttl).
  induction ops as [|op ops IH]; simpl; intros c Hc Cc; [exact Cc|].
  pose proof (exec_invariant op Hc) as Hc'.
  apply IH; [exact Hc'|].
  destruct Hc as [Hm Ht Hwf]. rewrite <- Hm in *. now apply exec_capacity_any.
Qed.

(** What [set] stores under its key, for a capacity of at least one *)
Lemma getitem_set (now : Z) key (value : option V) c :
  wf (LRUCache._cache c) -> 1 <= LRUCache.max_size c ->
  getitem key (LRUCache._cache (LRUCache.set now key value c))
  = Some (CacheEntry.new now key value (LRUCache.ttl c)).
Proof.
  intros Hwf Hms. rewrite set_cache by assumption. cbv zeta.
  pose proof (delitem_removes key Hwf) as Hrem.
  destruct (Z.ltb_spec (LRUCache.max_size c)
              (len (delitem key (LRUCache._cache c)
                    ++ [(key, CacheEntry.new now key value (LRUCache.ttl c))])))
    as [Hlt|Hle].
  - unfold len in Hlt. rewrite length_app in Hlt. simpl in Hlt.
    destruct (delitem key (LRUCache._cache c)) as [|[k a] d]; simpl in *; [lia|].
    destruct (String.eqb key k); [discriminate|].
    now apply getitem_snoc_absent.
  - now apply getitem_snoc_absent.
Qed.

(** A read after a write of the same key *)
Lemma get_after_set (written now now' : Z) key (value : option V) c :
  wf (LRUCache._cache c) -> 1 <= LRUCache.max_size c ->
  let c1 := LRUCache.set written key value c in
  let r := LRUCache.get now now' key c1 in
  (now - written <= LRUCache.ttl c * 1000000 ->
   fst r = value /\
   LRUCache._hits (snd r) = LRUCache._hits c1 + 1 /\
   LRUCache._misses (snd r) = LRUCache._misses c1 /\
   LRUCache.__contains__ key (snd r) = true) /\
  (LRUCache.ttl c * 1000000 < now - written ->
   fst r = None /\
   LRUCache._hits (snd r) = LRUCache._hits c1 /\
   LRUCache._misses (snd r) = LRUCache._misses c1 + 1 /\
   LRUCache.__contains__ key (snd r) = false).
Proof.
  intros Hwf Hms c1 r.
  pose proof (getitem_set written key value c Hwf Hms) as Hget. fold c1 in Hget.
  assert (Hwf' : wf (LRUCache._cache c1)).
  { assert (Hinv : LRUCache.invariant (LRUCache.max_size c) (LRUCache.ttl c) c)
      by now split.
    apply (exec_invariant (LRUCache.Set_ written key value) Hinv). }
  subst r. clearbody c1. split; intros Htime.
  - rewrite (LRUCacheSpec.get_hit_eq now now' key c1 Hget)
      by (unfold CacheEntry.is_expired; simpl; apply Z.ltb_ge; lia).
    simpl. repeat split. unfold LRUCache.__contains__. simpl.
    apply contains_In. rewrite keys_hit. apply in_or_app. right. now left.
  - rewrite (LRUCacheSpec.get_expired_eq now now' key c1 Hget)
      by (unfold CacheEntry.is_expired; simpl; apply Z.ltb_lt; lia).
    simpl. repeat split. unfold LRUCache.__contains__. simpl.
    now apply delitem_removes.
Qed.

(** X1. A value written with [set] in a cache of capacity at least one is
    what the next [get] of the key returns, with a hit counted, as long as
    the read comes within [ttl] seconds of the write; a later read returns
    [None], counts a miss and removes the entry.  This holds in any state
    the cache was brought to, so a second [set] of a key replaces its
    value. *)
Theorem set_then_get :
  forall (max_size ttl : Z) (ops : list (LRUCache.call V))
         (written now now' : Z) (key : string) (value : option V),
    1 <= max_size ->
    let c := LRUCache.set written key value
               (LRUCache.run ops (LRUCache.init max_size ttl)) in
    let r := LRUCache.get now now' key c in
    (now - written <= ttl * 1000000 ->
     fst r = value /\
     LRUCache._hits (snd r) = LRUCache._hits c + 1 /\
     LRUCache._misses (snd r) = LRUCache._misses c /\
     LRUCache.__contains__ key (snd r) = true) /\
    (ttl * 1000000 < now - written ->
     fst r = None /\
     LRUCache._hits (snd r) = LRUCache._hits c /\
     LRUCache._misses (snd r) = LRUCache._misses c + 1 /\
     LRUCache.__contains__ key (snd r) = false).
Proof.
  intros max_size ttl ops written now now' key value Hms.
  destruct (run_invariant (V:=V) max_size ttl ops) as [Hm Ht Hwf].
  pose proof (get_after_set written now now' key value
                (LRUCache.run ops (LRUCache.init max_size ttl)) Hwf) as H.
  rewrite Hm, Ht in H. apply H. exact Hms.
Qed.

(** X2. Writing a key that is already stored evicts nothing: the number of
    entries stays the same, the key goes to the most recently used
    position, and the other keys keep their order. *)
Theorem set_existing_key_keeps_size :
  forall (max_size ttl : Z) (ops : list (LRUCache.call V))
         (now : Z) (key : string) (value : option V),
    let c := LRUCache.run ops (LRUCache.init max_size ttl) in
    let c' := LRUCache.set now key value c in
    LRUCache.__contains__ key c = true ->
    LRUCache.__len__ c' = LRUCache.__len__ c /\
    LRUCache.evicted key c c' = [] /\
    keys (LRUCache._cache c')
    = filter (fun j => negb (String.eqb j key)) (keys (LRUCache._cache c))
      ++ [key].
Proof.
  intros max_size ttl ops now key value c c' Hin.
  destruct (run_invariant (V:=V) max_size ttl ops) as [Hm Ht Hwf].
  pose proof (run_capacity_any max_size ttl ops) as Hcap.
  fold c in Hm, Ht, Hwf, Hcap. subst c'. clearbody c.
  unfold LRUCache.__contains__ in Hin.
  pose proof (length_delitem_present _ _ Hin) as Hlen.
  unfold LRUCache.evicted, LRUCache.__len__ in *.
  rewrite set_cache by assumption. cbv zeta.
  assert (Hno : (LRUCache.max_size c
                 <? len (delitem key (LRUCache._cache c)
                         ++ [(key, CacheEntry.new now key value (LRUCache.ttl c))]))
                = false).
  { apply Z.ltb_ge. unfold len in *. rewrite length_app. simpl. lia. }
  rewrite Hno. split; [|split].
  - unfold len. rewrite length_app. simpl. lia.
  - apply LRUCacheSpec.filter_none. intros x Hx.
    destruct (String.eqb_spec x key) as [|Hne]; [reflexivity|]. simpl.
    assert (Hx' : contains x (delitem key (LRUCache._cache c)
                              ++ [(key, CacheEntry.new now key value (LRUCache.ttl c))])
                  = true).
    { apply contains_In. rewrite keys_app. apply in_or_app. left.
      now apply In_keys_delitem_other. }
    now rewrite Hx'.
  - rewrite keys_app. simpl. now rewrite LRUCacheSpec.keys_delitem_wf.
Qed.

(** X3. [delete] returns whether the key was stored.  Afterwards the key is
    not stored, a second [delete] returns [False], the other entries and
    their order are as before, and the hit and miss counters are
    untouched. *)
Theorem delete_removes_only_key :
  forall (max_size ttl : Z) (ops : list (LRUCache.call V)) (key : string),
    let c := LRUCache.run ops (LRUCache.init max_size ttl) in
    let r := LRUCache.delete key c in
    fst r = LRUCache.__contains__ key c /\
    LRUCache.__contains__ key (snd r) = false /\
    fst (LRUCache.delete key (snd r)) = false /\
    keys (LRUCache._cache (snd r))
    = filter (fun j => negb (String.eqb j key)) (keys (LRUCache._cache c)) /\
    (forall k, k <> key ->
       getitem k (LRUCache._cache (snd r)) = getitem k (LRUCache._cache c)) /\
    LRUCache._hits (snd r) = LRUCache._hits c /\
    LRUCache._misses (snd r) = LRUCache._misses c.
Proof.
  intros max_size ttl ops key c r.
  destruct (run_invariant (V:=V) max_size ttl ops) as [_ _ Hwf].
  fold c in Hwf. subst r. clearbody c.
  assert (Hgone : LRUCache.__contains__ key (snd (LRUCache.delete key c)) = false).
  { unfold LRUCache.delete, LRUCache.__contains__.
    destruct (contains key (LRUCache._cache c)) eqn:Hc; simpl;
      [now apply delitem_removes | exact Hc]. }
  split; [|split; [exact Hgone|split]].
  - unfold LRUCache.delete, LRUCache.__contains__.
    now destruct (contains key (LRUCache._cache c)).
  - unfold LRUCache.__contains__ in Hgone.
    unfold LRUCache.delete at 1. now rewrite Hgone.
  - unfold LRUCache.delete.
    destruct (contains key (LRUCache._cache c)) eqn:Hc; simpl.
    + repeat split; [now apply LRUCacheSpec.keys_delitem_wf|].
      intros k Hne. now apply getitem_delitem_other.
    + repeat split. symmetry. apply LRUCacheSpec.filter_all.
      intros x Hx. destruct (String.eqb_spec x key) as [->|]; [|reflexivity].
      apply contains_In in Hx. congruence.
Qed.

Lemma exec_counters c op n :
  0 <= LRUCache._hits c -> 0 <= LRUCache._misses c ->
  LRUCache._hits c + LRUCache._misses c = n ->
  0 <= LRUCache._hits (LRUCache.exec c op) /\
  0 <= LRUCache._misses (LRUCache.exec c op) /\
  LRUCache._hits (LRUCache.exec c op) + LRUCache._misses (LRUCache.exec c op)
  = LRUCache.gets_since_clear [op] n.
Proof.
  intros Hh Hm Hn. destruct op as [now now' key|now key value|key|]; simpl.
  - destruct (get_cases now now' key c) as [Hc|entry He Hx|entry He Hx];
      simpl; lia.
  - destruct (set_fields now key value c) as (_ & _ & Eh & Em).
    rewrite Eh, Em. lia.
  - unfold LRUCache.delete.
    destruct (contains key (LRUCache._cache c)); simpl; lia.
  - lia.
Qed.

Lemma run_counters ops c :
  0 <= LRUCache._hits c -> 0 <= LRUCache._misses c ->
  0 <= LRUCache._hits (LRUCache.run ops c) /\
  0 <= LRUCache._misses (LRUCache.run ops c) /\
  LRUCache._hits (LRUCache.run ops c) + LRUCache._misses (LRUCache.run ops c)
  = LRUCache.gets_since_clear ops (LRUCache._hits c + LRUCache._misses c).
Proof.
  revert c. unfold LRUCache.run, LRUCache.gets_since_clear.
  induction ops as [|op ops IH]; intros c Hh Hm; simpl; [lia|].
  destruct (exec_counters c op Hh Hm eq_refl) as (Hh' & Hm' & Hs).
  destruct (IH _ Hh' Hm') as (H1 & H2 & H3).
  split; [exact H1|]. split; [exact H2|].
  rewrite H3, Hs. reflexivity.
Qed.

(** X4. The two counters are never negative, and their sum is the number
    of [get] calls made since the cache was created or last cleared: every
    [get] counts exactly once, as a hit or as a miss, and [set] and
    [delete] count nothing. *)
Theorem counters_count_gets :
  forall (max_size ttl : Z) (ops : list (LRUCache.call V)),
    let c := LRUCache.run ops (LRUCache.init max_size ttl) in
    0 <= LRUCache._hits c /\
    0 <= LRUCache._misses c /\
    LRUCache._hits c + LRUCache._misses c = LRUCache.gets_since_clear ops 0.
Proof.
  intros max_size ttl ops c.
  apply (run_counters ops (LRUCache.init (V:=V) max_size ttl)); simpl; lia.
Qed.


(** X6. A cache created with a capacity of zero or less never stores
    anything: after any calls it is empty, so every [get] returns [None]
    and a value just written is already gone. *)
Theorem nonpositive_capacity_stores_nothing :
  forall (max_size ttl : Z) (ops : list (LRUCache.call V)),
    max_size <= 0 ->
    let c := LRUCache.run ops (LRUCache.init max_size ttl) in
    LRUCache._cache c = [] /\
    (forall now now' key, fst (LRUCache.get now now' key c) = None) /\
    (forall now key value,
        LRUCache.__contains__ key (LRUCache.set now key value c) = false).
Proof.
  intros max_size ttl ops Hms c.
  assert (Hempty : forall ops',
             LRUCache._cache (LRUCache.run ops' (LRUCache.init (V:=V) max_size ttl))
             = []).
  { intros ops'. pose proof (run_capacity_any max_size ttl ops') as Hcap.
    unfold LRUCache.__len__, len in Hcap.
    destruct (LRUCache._cache _); [reflexivity | simpl in Hcap; lia]. }
  split; [apply Hempty|]. split.
  - intros now now' key. unfold LRUCache.get. subst c. rewrite Hempty. reflexivity.
  - intros now key value. unfold LRUCache.__contains__.
    change (LRUCache.set now key value c)
      with (LRUCache.run [LRUCache.Set_ now key value] c).
    subst c. unfold LRUCache.run. rewrite <- fold_left_app.
    change (fold_left (@LRUCache.exec V) (ops ++ [LRUCache.Set_ now key value])
                      (LRUCache.init max_size ttl))
      with (LRUCache.run (ops ++ [LRUCache.Set_ now key value])
                         (LRUCache.init (V:=V) max_size ttl)).
    now rewrite Hempty.
Qed.
End Extra.

Lemma set_then_get_witness :
  let c := LRUCache.set 5000000 "k" (Some 2)
             (LRUCache.run [LRUCache.Set_ 0 "k" (Some 1)] (LRUCache.init 1 10)) in
  fst (LRUCache.get 15000000 15000001 "k" c) = Some 2 /\
  fst (LRUCache.get 15000001 15000002 "k" c) = None.
Proof.
  destruct (@set_then_get Z 1 10 [LRUCache.Set_ 0 "k" (Some 1)]
              5000000 15000000 15000001 "k" (Some 2)) as [Hlive _]; [lia|].
  destruct (@set_then_get Z 1 10 [LRUCache.Set_ 0 "k" (Some 1)]
              5000000 15000001 15000002 "k" (Some 2)) as [_ Hdead]; [lia|].
  split; [apply Hlive | apply Hdead]; lia.
Defined.

Lemma set_existing_key_keeps_size_witness :
  let c := LRUCache.run [LRUCache.Set_ 0 "a" (Some 1); LRUCache.Set_ 1 "b" (Some 2)]
                        (LRUCache.init 2 10) in
  let c' := LRUCache.set 2 "a" (Some 3) c in
  LRUCache.__len__ c' = 2 /\
  LRUCache.evicted "a" c c' = [] /\
  keys (LRUCache._cache c') = ["b"; "a"].
Proof.
  apply (@set_existing_key_keeps_size Z 2 10
           [LRUCache.Set_ 0 "a" (Some 1); LRUCache.Set_ 1 "b" (Some 2)]
           2 "a" (Some 3)).
  reflexivity.
Defined.

Lemma delete_removes_only_key_witness :
  let c := LRUCache.run [LRUCache.Set_ 0 "a" (Some 1); LRUCache.Set_ 1 "b" (Some 2)]
                        (LRUCache.init 2 10) in
  fst (LRUCache.delete "a" c) = true /\
  fst (LRUCache.delete "a" (snd (LRUCache.delete "a" c))) = false /\
  getitem "b" (LRUCache._cache (snd (LRUCache.delete "a" c)))
  = getitem "b" (LRUCache._cache c).
Proof.
  destruct (@delete_removes_only_key Z 2 10
              [LRUCache.Set_ 0 "a" (Some 1); LRUCache.Set_ 1 "b" (Some 2)] "a")
    as (Hret & _ & Hagain & _ & Hother & _).
  split; [exact Hret|]. split; [exact Hagain|]. apply Hother. discriminate.
Defined.


Lemma nonpositive_capacity_stores_nothing_witness :
  let c := LRUCache.run [LRUCache.Set_ 0 "a" (Some 1)] (LRUCache.init 0 10) in
  LRUCache._cache c = [] /\
  (forall now now' key, fst (LRUCache.get now now' key c) = None) /\
  (forall now key value,
      LRUCache.__contains__ key (LRUCache.set now key value c) = false).
Proof.
  apply (@nonpositive_capacity_stores_nothing Z 0 10 [LRUCache.Set_ 0 "a" (Some 1)]).
  lia.
Defined.
End LRUCacheExtra.

(** ** QueryCache: disabled caches, round trips and statistics *)
Module QueryCacheExtra.
Import OrderedDict OrderedDictFacts LRUCacheFacts jsonFacts.
Local Open Scope string_scope.
Local Open Scope list_scope.
Local Open Scope Z_scope.

Section Extra.
Context {V : Type}.

(** The key does not depend on the order of the keyword arguments. *)
Lemma generate_key_perm (query : string) (kwargs kwargs' : list (string * json.value)) :
  QueryCache.kwargs_ok kwargs = true -> Permutation kwargs kwargs' ->
  QueryCache._generate_key query kwargs = QueryCache._generate_key query kwargs'.
Proof.
  intros Hok Hp. apply QueryCacheKeySpec.distinct_NoDup in Hok.
  assert (Hok' : NoDup ("query" :: keys kwargs')).
  { eapply Permutation_NoDup; [|exact Hok].
    apply perm_skip. now apply Permutation_map. }
  unfold QueryCache._generate_key, QueryCache.key_string.
  rewrite !QueryCacheKeySpec.key_data_fresh by assumption.
  rewrite !QueryCacheKeySpec.dumps_Dict.
  rewrite (sort_items_permutation
             (l1 := map (fun kv => (fst kv, json.dumps (snd kv)))
                        (("query", json.Str query) :: kwargs))
             (l2 := map (fun kv => (fst kv, json.dumps (snd kv)))
                        (("query", json.Str query) :: kwargs'))).
  - reflexivity.
  - apply Permutation_map. now apply perm_skip.
  - rewrite map_map. simpl. exact Hok.
Qed.

Lemma exec_enabled (cfg : CacheConfig.t) (q : QueryCache.t V) (op : QueryCache.call V) :
  CacheConfig.enabled cfg = true ->
  QueryCache.enabled_invariant cfg q ->
  QueryCache.enabled_invariant cfg (QueryCache.exec q op).
Proof.
  intros Hen (Hcfg & c & Hc & Hinv). unfold QueryCache.enabled_invariant.
  destruct op as [now now' query kwargs|now query result kwargs|]; simpl.
  - unfold QueryCache.get. rewrite Hcfg, Hen, Hc. simpl.
    destruct (LRUCache.get now now' (QueryCache._generate_key query kwargs) c)
      as [r c'] eqn:Hg. simpl. split; [first [exact Hcfg | reflexivity]|].
    exists c'. split; [reflexivity|].
    change c' with (snd (r, c')). rewrite <- Hg.
    apply (exec_invariant (LRUCache.Get now now' _) Hinv).
  - unfold QueryCache.set. rewrite Hcfg, Hen, Hc. simpl. split; [first [exact Hcfg | reflexivity]|].
    eexists. split; [reflexivity|].
    apply (exec_invariant (LRUCache.Set_ now _ result) Hinv).
  - unfold QueryCache.clear. rewrite Hc.
    destruct (LRUCache.truth c); simpl.
    + split; [first [exact Hcfg | reflexivity]|]. eexists. split; [reflexivity|].
      apply (exec_invariant LRUCache.Clear Hinv).
    + split; [first [exact Hcfg | reflexivity]|]. exists c. now split.
Qed.

Lemma run_enabled (cfg : CacheConfig.t) (ops : list (QueryCache.call V)) :
  CacheConfig.enabled cfg = true ->
  QueryCache.enabled_invariant cfg (QueryCache.run ops (QueryCache.init (Some cfg))).
Proof.
  intros Hen. unfold QueryCache.run.
  assert (H0 : QueryCache.enabled_invariant cfg (QueryCache.init (V:=V) (Some cfg))).
  { unfold QueryCache.enabled_invariant, QueryCache.init. rewrite Hen. simpl.
    split; [reflexivity|]. eexists. split; [reflexivity|]. apply init_invariant. }
  revert H0. generalize (QueryCache.init (V:=V) (Some cfg)).
  induction ops as [|op ops IH]; simpl; intros q Hq; [exact Hq|].
  apply IH. now apply exec_enabled.
Qed.

(** A read after a write in an enabled query cache of capacity at least
    one, when the two calls generate the same key *)
Lemma query_get_after_set (cfg : CacheConfig.t) (q : QueryCache.t V)
      (written now now' : Z) (query query' : string) (result : option V)
      (kwargs kwargs' : list (string * json.value)) :
  CacheConfig.enabled cfg = true -> 1 <= CacheConfig.max_size cfg ->
  QueryCache.enabled_invariant cfg q ->
  QueryCache._generate_key query' kwargs' = QueryCache._generate_key query kwargs ->
  now - written <= CacheConfig.ttl cfg * 1000000 ->
  let q1 := QueryCache.set written query result kwargs q in
  let r := QueryCache.get now now' query' kwargs' q1 in
  fst r = result /\
  QueryCache.enabled_invariant cfg (snd r) /\
  exists c1 c2,
    QueryCache.cache q1 = Some c1 /\ QueryCache.cache (snd r) = Some c2 /\
    LRUCache._hits c2 = LRUCache._hits c1 + 1 /\
    LRUCache._misses c2 = LRUCache._misses c1.
Proof.
  intros Hen Hms Hinv Hkey Htime. cbv zeta.
  assert (Hinv2 : QueryCache.enabled_invariant cfg
                    (snd (QueryCache.get now now' query' kwargs'
                            (QueryCache.set written query result kwargs q)))).
  { apply (exec_enabled (QueryCache.Get now now' query' kwargs') Hen).
    apply (exec_enabled (QueryCache.Set_ written query result kwargs) Hen).
    exact Hinv. }
  destruct Hinv as (Hcfg & c & Hc & [Hm Ht Hwf]).
  split; [|split; [exact Hinv2|]]; clear Hinv2.
  - unfold QueryCache.set. rewrite Hcfg, Hen, Hc. simpl.
    unfold QueryCache.get. simpl. rewrite ?Hcfg, Hen. simpl. rewrite Hkey.
    destruct (LRUCacheExtra.get_after_set written now now'
                (QueryCache._generate_key query kwargs) result c Hwf)
      as [Hlive _]; [lia|].
    destruct Hlive as (Hr & _); [lia|].
    destruct (LRUCache.get now now' (QueryCache._generate_key query kwargs)
                (LRUCache.set written (QueryCache._generate_key query kwargs) result c))
      as [r c'] eqn:Hg. simpl in *. exact Hr.
  - unfold QueryCache.set. rewrite Hcfg, Hen, Hc. simpl.
    unfold QueryCache.get. simpl. rewrite ?Hcfg, Hen. simpl. rewrite Hkey.
    destruct (LRUCacheExtra.get_after_set written now now'
                (QueryCache._generate_key query kwargs) result c Hwf)
      as [Hlive _]; [lia|].
    destruct Hlive as (_ & Hh & Hmi & _); [lia|].
    destruct (LRUCache.get now now' (QueryCache._generate_key query kwargs)
                (LRUCache.set written (QueryCache._generate_key query kwargs) result c))
      as [r c'] eqn:Hg. simpl in *.
    eexists. exists c'. repeat split; assumption.
Qed.

(** X7. A query cache built from a configuration with [enabled = False]
    holds no cache and never changes: every [set] and [clear] is a no-op,
    every [get] returns [None], and [get_stats] reports it as not
    enabled. *)
Theorem disabled_cache_passes_through :
  forall (cfg : CacheConfig.t) (ops : list (QueryCache.call V)),
    CacheConfig.enabled cfg = false ->
    let q := QueryCache.run ops (QueryCache.init (Some cfg)) in
    q = QueryCache.init (Some cfg) /\
    QueryCache.cache q = None /\
    (forall now now' query kwargs,
        QueryCache.get now now' query kwargs q = (None, q)) /\
    (forall now query result kwargs,
        QueryCache.set now query result kwargs q = q) /\
    QueryCache.get_stats q = QueryCache.NotEnabled.
Proof.
  intros cfg ops Hen q.
  assert (Hfix : forall op, QueryCache.exec (QueryCache.init (V:=V) (Some cfg)) op
                            = QueryCache.init (Some cfg)).
  { intros [now now' query kwargs|now query result kwargs|]; simpl.
    - unfold QueryCache.get, QueryCache.init. simpl. now rewrite Hen.
    - unfold QueryCache.set, QueryCache.init. simpl. now rewrite Hen.
    - unfold QueryCache.clear, QueryCache.init. simpl. now rewrite Hen. }
  assert (Hq : q = QueryCache.init (Some cfg)).
  { subst q. unfold QueryCache.run.
    induction ops as [|op ops IH]; simpl; [reflexivity|]. now rewrite Hfix. }
  rewrite Hq. split; [reflexivity|].
  unfold QueryCache.init, QueryCache.get, QueryCache.set, QueryCache.get_stats.
  simpl. rewrite Hen. simpl. repeat split.
Qed.

(** X8. In an enabled query cache of capacity at least one, a result
    stored for a query and keyword arguments is what [get] returns for the
    same query and the same arguments in any order, as long as the read
    comes within [ttl] seconds of the write. *)
Theorem query_set_then_get :
  forall (cfg : CacheConfig.t) (ops : list (QueryCache.call V))
         (written now now' : Z) (query : string) (result : option V)
         (kwargs kwargs' : list (string * json.value)),
    CacheConfig.enabled cfg = true ->
    1 <= CacheConfig.max_size cfg ->
    QueryCache.kwargs_ok kwargs = true ->
    Permutation kwargs kwargs' ->
    now - written <= CacheConfig.ttl cfg * 1000000 ->
    let q := QueryCache.run ops (QueryCache.init (Some cfg)) in
    fst (QueryCache.get now now' query kwargs'
           (QueryCache.set written query result kwargs q)) = result.
Proof.
  intros cfg ops written now now' query result kwargs kwargs' Hen Hms Hok Hp Ht q.
  apply (query_get_after_set (cfg := cfg)); auto.
  - now apply run_enabled.
  - symmetry. now apply generate_key_perm.
Qed.

(** X9. [QueryCache.clear] and [QueryCache.get_stats] test the truth value
    of the cache, which is false while it holds no entry.  So for an
    enabled cache without entries [get_stats] answers as for a disabled
    one and [clear] changes nothing, not even the counters; once an entry
    is stored, [get_stats] gives the statistics and [clear] empties the
    cache and resets the counters. *)
Theorem empty_cache_reads_as_disabled :
  forall (q : QueryCache.t V) (c : LRUCache.t V),
    QueryCache.cache q = Some c ->
    (LRUCache._cache c = [] ->
     QueryCache.get_stats q = QueryCache.NotEnabled /\
     QueryCache.clear q = q) /\
    (LRUCache._cache c <> [] ->
     QueryCache.get_stats q = QueryCache.Statistics (LRUCache.get_stats c) /\
     QueryCache.clear q
     = {| QueryCache.config := QueryCache.config q;
          QueryCache.cache := Some (LRUCache.clear c) |} /\
     LRUCache._hits (LRUCache.clear c) = 0 /\
     LRUCache._misses (LRUCache.clear c) = 0).
Proof.
  intros q c Hc. unfold QueryCache.get_stats, QueryCache.clear. rewrite Hc.
  unfold LRUCache.truth, LRUCache.__len__, len. split; intros Hd.
  - rewrite Hd. simpl. split; reflexivity.
  - destruct (LRUCache._cache c) as [|b d]; [congruence|].
    assert (Hne : (Z.of_nat (List.length (b :: d)) =? 0) = false)
      by (apply Z.eqb_neq; simpl List.length; lia).
    rewrite Hne. simpl. repeat split.
Qed.
End Extra.

Lemma disabled_cache_passes_through_witness :
  let cfg := {| CacheConfig.enabled := false; CacheConfig.ttl := 60;
                CacheConfig.max_size := 8 |} in
  let q := QueryCache.run [QueryCache.Set_ 0 "query1" (Some 1) []]
                          (QueryCache.init (Some cfg)) in
  QueryCache.cache q = None /\
  fst (QueryCache.get 1 1 "query1" [] q) = None.
Proof.
  intros cfg q.
  destruct (@disabled_cache_passes_through Z cfg
              [QueryCache.Set_ 0 "query1" (Some 1) []] eq_refl)
    as (_ & Hnone & Hget & _).
  split; [exact Hnone|]. fold q in Hget. now rewrite Hget.
Defined.

Lemma query_set_then_get_witness :
  fst (QueryCache.get 5000000 5000001 "q" [("b", json.Int 2); ("a", json.Int 1)]
         (QueryCache.set 0 "q" (Some 5) [("a", json.Int 1); ("b", json.Int 2)]
            (QueryCache.run [] (QueryCache.init (Some CacheConfig.default)))))
  = Some 5.
Proof.
  apply (@query_set_then_get Z CacheConfig.default [] 0 5000000 5000001 "q"
           (Some 5) [("a", json.Int 1); ("b", json.Int 2)]
           [("b", json.Int 2); ("a", json.Int 1)]).
  - reflexivity.
  - simpl. lia.
  - reflexivity.
  - apply perm_swap.
  - simpl. lia.
Defined.

Lemma empty_cache_reads_as_disabled_witness :
  let q := snd (QueryCache.get 0 0 "q" [] (QueryCache.init (V:=Z) None)) in
  option_map (@LRUCache._misses Z) (QueryCache.cache q) = Some 1 /\
  QueryCache.get_stats q = QueryCache.NotEnabled /\
  QueryCache.clear q = q.
Proof.
  intros q.
  assert (Hc : QueryCache.cache q
               = Some (LRUCache.count_miss (LRUCache.init 1000 3600)))
    by (vm_compute; reflexivity).
  split; [rewrite Hc; reflexivity|].
  apply (proj1 (@empty_cache_reads_as_disabled Z q _ Hc)). reflexivity.
Defined.
End QueryCacheExtra.

(** ** The [cached] decorator *)
Module cachedSpec.
Import exceptions retry cached QueryCacheExtra.
Local Open Scope string_scope.
Local Open Scope list_scope.
Local Open Scope Z_scope.

Section Decorator.
Variables W V A : Type.
Variable py_str : A -> string.

(** The first call of a decorated function on a miss: the function is
    called, and a returned value is stored under the query. *)
Lemma wrapper_miss (cache_kwargs : list (string * json.value))
      (func : function W V A) (now now' now'' : Z) (args : list A)
      (kwargs : list (string * A)) (q : QueryCache.t V) (w w1 : W)
      (result : option V) :
  fst (QueryCache.get now now' (query_arg py_str args kwargs) cache_kwargs q) = None ->
  func args kwargs w = (Return result, w1) ->
  wrapper py_str cache_kwargs func now now' now'' args kwargs q w
  = (Return result,
     QueryCache.set now'' (query_arg py_str args kwargs) result cache_kwargs
       (snd (QueryCache.get now now' (query_arg py_str args kwargs) cache_kwargs q)),
     w1, [Called (Return result)]).
Proof.
  intros Hmiss Hf. unfold wrapper.
  destruct (QueryCache.get now now' (query_arg py_str args kwargs) cache_kwargs q)
    as [cached_result q1]. simpl in Hmiss. subst cached_result.
  now rewrite Hf.
Qed.


End Decorator.


End cachedSpec.

(** ** Retry: what holds of every run *)
Module retryExtra.
Import exceptions retry retrySpec.
Local Open Scope list_scope.

Section Runs.
Variables W R : Type.
Variable time_sleep : Q -> W -> W.
Variable p : policy W.
Variable func : operation W R.

(** The shape of every run of the loop entered at attempt [start] with
    [S n] iterations left, the last of which is attempt [max_retries]:
    calls that raised retried failures, each followed by its sleep, and
    one last call. *)
Lemma attempts_shape (n start : nat) (last_exception : option exc) (w : W) :
  (Z.of_nat start + Z.of_nat n = max_retries p)%Z ->
  let r := attempts time_sleep p func (S n) (Z.of_nat start) last_exception w in
  exists es last_call,
    calls (snd r) = map Raise es ++ [last_call] /\
    Forall (fun e => isinstance e (exceptions p) = true) es /\
    (List.length es <= n)%nat /\
    sleeps (snd r)
    = map (fun k => exponential_backoff (Z.of_nat k) (retry.base_delay p)
                      (retry.max_delay p) (retry.exponential_base p))
          (seq start (List.length es)) /\
    (forall a, fst (fst r) = Return (Some a) <-> last_call = Return a) /\
    fst (fst r) <> Return None /\
    (forall e, last_call = Raise e ->
               isinstance e (exceptions p) = false \/ List.length es = n ->
               fst (fst r) = Raise e).
Proof.
  revert start last_exception w.
  induction n as [|n IH]; intros start last_exception w Hn; cbv zeta;
    rewrite attempts_S; destruct (func w) as [[a|e] w1].
  - exists [], (Return a). simpl. repeat split; auto; try discriminate.
    + now intros [= ->].
    + now intros [= ->].
  - exists [], (Raise e).
    replace (Z.of_nat start =? max_retries p)%Z with true
      by (symmetry; apply Z.eqb_eq; lia).
    destruct (isinstance e (exceptions p)); simpl; repeat split; auto;
      try discriminate; now intros e' [= ->].
  - exists [], (Return a). simpl. repeat split; auto; try discriminate; try lia.
    + now intros [= ->].
    + now intros [= ->].
  - destruct (isinstance e (exceptions p)) eqn:He.
    2:{ exists [], (Raise e). simpl. repeat split; auto; try discriminate; try lia.
        now intros e' [= ->]. }
    replace (Z.of_nat start =? max_retries p)%Z with false
      by (symmetry; apply Z.eqb_neq; lia).
    cbv zeta.
    assert (Hstop : forall (e' : exc) (w2 : W) (notified : list (event R)),
               calls notified = [] -> sleeps notified = [] ->
               let r := (@Raise (option R) e', w2, Called (Raise e) :: notified) in
               exists es last_call,
                 calls (snd r) = map Raise es ++ [last_call] /\
                 Forall (fun e => isinstance e (exceptions p) = true) es /\
                 (List.length es <= S n)%nat /\
                 sleeps (snd r)
                 = map (fun k => exponential_backoff (Z.of_nat k) (retry.base_delay p)
                                   (retry.max_delay p) (retry.exponential_base p))
                       (seq start (List.length es)) /\
                 (forall a, fst (fst r) = Return (Some a) <-> last_call = Return a) /\
                 fst (fst r) <> Return None /\
                 (forall e0, last_call = Raise e0 ->
                             isinstance e0 (exceptions p) = false \/ List.length es = S n ->
                             fst (fst r) = Raise e0)).
    { intros e' w2 notified Hc Hs. exists [], (Raise e). simpl.
      rewrite Hc, Hs. repeat split; auto; try discriminate; try lia.
      all: intros e0 [= <-] [H|H]; [congruence | discriminate]. }
    assert (Hgo : forall (w2 : W) (notified : list (event R)),
               calls notified = [] -> sleeps notified = [] ->
               let delay := exponential_backoff (Z.of_nat start) (retry.base_delay p)
                              (retry.max_delay p) (retry.exponential_base p) in
               let r := match sleep time_sleep delay w2 with
                        | (Raise e', w3) =>
                            (@Raise (option R) e', w3, Called (Raise e) :: notified)
                        | (Return _, w3) =>
                            let '(res, w4, tr) :=
                              attempts time_sleep p func (S n) (Z.of_nat start + 1)
                                       (Some e) w3 in
                            (res, w4, Called (Raise e) :: notified ++ Slept delay :: tr)
                        end in
               exists es last_call,
                 calls (snd r) = map Raise es ++ [last_call] /\
                 Forall (fun e => isinstance e (exceptions p) = true) es /\
                 (List.length es <= S n)%nat /\
                 sleeps (snd r)
                 = map (fun k => exponential_backoff (Z.of_nat k) (retry.base_delay p)
                                   (retry.max_delay p) (retry.exponential_base p))
                       (seq start (List.length es)) /\
                 (forall a, fst (fst r) = Return (Some a) <-> last_call = Return a) /\
                 fst (fst r) <> Return None /\
                 (forall e0, last_call = Raise e0 ->
                             isinstance e0 (exceptions p) = false \/ List.length es = S n ->
                             fst (fst r) = Raise e0)).
    { intros w2 notified Hc Hs. cbv zeta. unfold sleep.
      destruct (Qle_bool 0 _); [|now apply Hstop].
      replace (Z.of_nat start + 1)%Z with (Z.of_nat (S start)) by lia.
      destruct (IH (S start) (Some e) (time_sleep
                  (exponential_backoff (Z.of_nat start) (retry.base_delay p)
                     (retry.max_delay p) (retry.exponential_base p)) w2))
        as (es & last_call & Hcalls & Hall & Hlen & Hsleeps & Hret & Hnone & Hraise);
        [lia|].
      destruct (attempts time_sleep p func (S n) (Z.of_nat (S start)) (Some e) _)
        as [[res w4] tr]. simpl in *.
      exists (e :: es), last_call. simpl.
      rewrite calls_app, sleeps_app, Hc, Hs. simpl. rewrite Hcalls, Hsleeps.
      repeat split; auto; try lia.
      - apply Hret.
      - apply Hret.
      - intros e0 Hl [H|H]; apply Hraise; auto; right; lia. }
    destruct (on_retry p) as [callback|].
    + destruct (callback e (Z.of_nat start) w1) as [[u|e'] w2].
      * now apply Hgo.
      * now apply Hstop.
    + now apply (Hgo w1 []).
Qed.
End Runs.



(** X14. With a negative [max_retries] the loop has no iteration: the
    wrapper returns [None] without calling the function. *)
Theorem negative_max_retries_skips_call :
  forall (W R : Type) (time_sleep : Q -> W -> W) (p : policy W)
         (func : operation W R) (w : W),
    (max_retries p < 0)%Z ->
    retry_with_exponential_backoff time_sleep p func w = (Return None, w, []).
Proof.
  intros W R time_sleep p func w Hn. unfold retry_with_exponential_backoff.
  replace (Z.to_nat (max_retries p + 1)) with 0%nat by lia. reflexivity.
Qed.






Lemma negative_max_retries_skips_call_witness :
  retry_with_exponential_backoff Qplus (retry_on_timeout Q (-1) 1) failing 0
  = (Return None, 0, []).
Proof.
  apply (@negative_max_retries_skips_call Q Z Qplus (retry_on_timeout Q (-1) 1)
           failing 0).
  simpl. lia.
Defined.



End retryExtra.

(** ** The circuit breaker over sequences of uses *)
Module CircuitBreakerExtra.
Import exceptions retry.
Local Open Scope Z_scope.

Section Breaker.
Variables W R : Type.
Variable time_time : W -> Q.

(** A call through a breaker that is not open: the function decides. *)
Lemma apply_use_not_open (cb : CircuitBreaker) (func : operation W R) (w : W) :
  state cb <> open ->
  apply_use time_time cb (Call func w)
  = match fst (func w) with
    | Return _ => _on_success cb
    | Raise e =>
        if isinstance e (expected_exceptions cb)
        then _on_failure (time_time (snd (func w))) cb
        else cb
    end.
Proof.
  intros Hs. unfold apply_use, call.
  destruct (state cb) eqn:E; try congruence;
    destruct (func w) as [[a|e] w1]; simpl;
    try destruct (isinstance e (expected_exceptions cb)); reflexivity.
Qed.

Lemma on_failure_configuration (now : Q) (cb : CircuitBreaker) :
  configuration (_on_failure now cb) = configuration cb.
Proof.
  unfold _on_failure, configuration. simpl.
  destruct (failure_threshold cb <=? failure_count cb + 1); reflexivity.
Qed.

Lemma on_success_configuration (cb : CircuitBreaker) :
  configuration (_on_success cb) = configuration cb.
Proof.
  unfold _on_success, configuration. destruct (state cb); reflexivity.
Qed.

(** No use changes the constructor arguments. *)
Lemma apply_use_configuration (cb : CircuitBreaker) (u : use W R) :
  configuration (apply_use time_time cb u) = configuration cb.
Proof.
  destruct u as [func w|]; [|reflexivity].
  unfold apply_use, call.
  destruct (state cb) eqn:E;
    try destruct (_should_attempt_reset (time_time w) cb);
    try reflexivity;
    destruct (func w) as [[a|e] w1]; simpl;
    try destruct (isinstance e (expected_exceptions cb)); simpl;
    rewrite ?on_failure_configuration, ?on_success_configuration; reflexivity.
Qed.

Lemma after_configuration (uses : list (use W R)) (cb : CircuitBreaker) :
  configuration (after time_time uses cb) = configuration cb.
Proof.
  unfold after. revert cb.
  induction uses as [|u uses IH]; simpl; intros cb; [reflexivity|].
  rewrite IH. apply apply_use_configuration.
Qed.

Lemma after_app (us vs : list (use W R)) (cb : CircuitBreaker) :
  after time_time (us ++ vs) cb = after time_time vs (after time_time us cb).
Proof. unfold after. apply fold_left_app. Qed.

(** Guarded failures below the threshold are counted one by one and leave
    the breaker closed. *)
Lemma counted_below_threshold (uses : list (use W R)) (cb : CircuitBreaker) :
  state cb = closed ->
  Forall (fun u => guarded_failure (expected_exceptions cb) u = true) uses ->
  failure_count cb + Z.of_nat (List.length uses) < failure_threshold cb ->
  state (after time_time uses cb) = closed /\
  failure_count (after time_time uses cb)
  = failure_count cb + Z.of_nat (List.length uses).
Proof.
  revert cb. induction uses as [|u uses IH]; intros cb Hs Hall Hlt.
  - simpl. split; [exact Hs | lia].
  - inversion Hall as [|u' uses' Hu Hrest]; subst.
    change (after time_time (u :: uses) cb)
      with (after time_time uses (apply_use time_time cb u)).
    assert (Hstep : apply_use time_time cb u
                    = with_last_failure_time
                        (match u with
                         | Call func w => Some (time_time (snd (func w)))
                         | Reset _ _ => None
                         end)
                        (with_failure_count (failure_count cb + 1) cb)).
    { destruct u as [func w|]; [|discriminate].
      rewrite apply_use_not_open by congruence.
      unfold guarded_failure in Hu.
      destruct (fst (func w)) as [a|e]; [discriminate|]. rewrite Hu.
      unfold _on_failure. simpl.
      replace (failure_threshold cb <=? failure_count cb + 1) with false;
        [reflexivity|].
      symmetry. apply Z.leb_gt. simpl List.length in Hlt. lia. }
    rewrite Hstep. simpl List.length in Hlt.
    destruct (IH (with_last_failure_time
                    (match u with
                     | Call func w => Some (time_time (snd (func w)))
                     | Reset _ _ => None
                     end)
                    (with_failure_count (failure_count cb + 1) cb)))
      as [H1 H2]; simpl; auto; [lia|].
    split; [exact H1|]. rewrite H2. simpl. lia.
Qed.

(** Every use keeps the count and the state in agreement. *)
Lemma apply_use_consistent (cb : CircuitBreaker) (u : use W R) :
  1 <= failure_threshold cb ->
  consistent cb -> consistent (apply_use time_time cb u).
Proof.
  intros Hthr Hcons. pose proof Hcons as (Hpos & Hclosed & Hother).
  destruct u as [func w|].
  2:{ unfold consistent. simpl. repeat split; try lia; congruence. }
  assert (Hgate : forall cb1,
             failure_threshold cb1 = failure_threshold cb ->
             consistent cb1 -> state cb1 <> open ->
             consistent (apply_use time_time cb1 (Call func w))).
  { intros cb1 Hcfg (Hp1 & Hc1 & Ho1) Hno.
    rewrite apply_use_not_open by exact Hno.
    destruct (fst (func w)) as [a|e].
    - unfold _on_success, consistent.
      destruct (state cb1) eqn:E; simpl; try congruence;
        repeat split; try lia; congruence.
    - destruct (isinstance e (expected_exceptions cb1));
        [|exact (conj Hp1 (conj Hc1 Ho1))].
      unfold _on_failure, consistent. simpl.
      destruct (Z.leb_spec (failure_threshold cb1) (failure_count cb1 + 1));
        simpl.
      + repeat split; try lia; congruence.
      + split; [lia|]. split; [intros; lia|].
        intros Hne. destruct (Ho1 Hne) as [Hge _]. lia. }
  destruct (state cb) eqn:E.
  - apply Hgate;
      [reflexivity | exact Hcons | congruence].
  - unfold apply_use, call. rewrite E.
    destruct (_should_attempt_reset (time_time w) cb) eqn:Hr.
    + assert (Hh : consistent (apply_use time_time (with_state half_open cb)
                                 (Call func w))).
      { apply Hgate; [reflexivity | | simpl; congruence].
        unfold consistent. simpl. split; [exact Hpos|].
        split; [discriminate|]. intros _. apply Hother. congruence. }
      unfold apply_use, call in Hh. simpl state in Hh. exact Hh.
    + simpl. exact Hcons.
  - apply Hgate;
      [reflexivity | exact Hcons | congruence].
Qed.

(** X18. Guarded failures are counted one by one through a closed
    breaker: while the count stays below [failure_threshold] the breaker
    stays closed, and the failure that brings the count to the threshold
    opens it and leaves the time of that failure. *)
Theorem breaker_trips_at_threshold :
  forall (cb : CircuitBreaker) (front : list (use W R))
         (func : operation W R) (w : W),
    state cb = closed ->
    Forall (fun u => guarded_failure (expected_exceptions cb) u = true)
           (front ++ [Call func w]) ->
    failure_count cb + Z.of_nat (List.length front) + 1 = failure_threshold cb ->
    let before := after time_time front cb in
    let cb' := after time_time (front ++ [Call func w]) cb in
    state before = closed /\
    failure_count before = failure_count cb + Z.of_nat (List.length front) /\
    state cb' = open /\
    failure_count cb' = failure_threshold cb /\
    last_failure_time cb' = Some (time_time (snd (func w))).
Proof.
  intros cb front func w Hs Hall Hthr before cb'.
  apply Forall_app in Hall. destruct Hall as [Hfront Hlast].
  inversion Hlast as [|u us Hu _]; subst u us.
  destruct (@counted_below_threshold front cb Hs Hfront) as [Hb1 Hb2]; [lia|].
  split; [exact Hb1|]. split; [exact Hb2|].
  subst cb'. rewrite after_app. fold before.
  change (after time_time [Call func w] before)
    with (apply_use time_time before (Call func w)).
  rewrite apply_use_not_open by (unfold before; congruence).
  pose proof (after_configuration front cb) as Hcfg. fold before in Hcfg.
  unfold configuration in Hcfg. injection Hcfg as Hc1 Hc2 Hc3.
  unfold guarded_failure in Hu. rewrite Hc3.
  destruct (fst (func w)) as [a|e]; [discriminate|]. rewrite Hu.
  unfold _on_failure. simpl.
  replace (failure_threshold before <=? failure_count before + 1) with true
    by (symmetry; apply Z.leb_le; unfold before in *; lia).
  simpl. repeat split. unfold before in *. lia.
Qed.

(** X19. Only consecutive failures trip the breaker: a call that returns
    through a breaker that is not open closes it and clears the count, so
    the guarded failures that follow are counted from zero. *)
Theorem success_restarts_count :
  forall (cb : CircuitBreaker) (u : use W R) (failures : list (use W R)),
    state cb <> open ->
    returns u = true ->
    Forall (fun u => guarded_failure (expected_exceptions cb) u = true)
           failures ->
    Z.of_nat (List.length failures) < failure_threshold cb ->
    let cb' := after time_time (u :: failures) cb in
    state cb' = closed /\
    failure_count cb' = Z.of_nat (List.length failures).
Proof.
  intros cb u failures Hs Hu Hall Hlt cb'. subst cb'.
  change (after time_time (u :: failures) cb)
    with (after time_time failures (apply_use time_time cb u)).
  destruct u as [func w|]; [|discriminate].
  rewrite apply_use_not_open by exact Hs.
  unfold returns in Hu. destruct (fst (func w)) as [a|e]; [|discriminate].
  assert (Hsucc : state (_on_success cb) = closed /\
                  failure_count (_on_success cb) = 0 /\
                  failure_threshold (_on_success cb) = failure_threshold cb /\
                  expected_exceptions (_on_success cb) = expected_exceptions cb).
  { unfold _on_success. destruct (state cb) eqn:E; simpl; auto. congruence. }
  destruct Hsucc as (H1 & H2 & H3 & H4).
  destruct (@counted_below_threshold failures (_on_success cb) H1) as [Hc1 Hc2].
  - now rewrite H4.
  - rewrite H2, H3. lia.
  - split; [exact Hc1|]. rewrite Hc2, H2. lia.
Qed.

(** X20. Failures outside [expected_exceptions] are never counted: any
    number of calls that raise them through a breaker that is not open
    leaves the breaker exactly as it was. *)
Theorem other_failures_leave_breaker :
  forall (cb : CircuitBreaker) (uses : list (use W R)),
    state cb <> open ->
    Forall (fun u => other_failure (expected_exceptions cb) u = true) uses ->
    after time_time uses cb = cb.
Proof.
  intros cb uses Hs Hall. induction Hall as [|u uses Hu _ IH]; [reflexivity|].
  change (after time_time (u :: uses) cb)
    with (after time_time uses (apply_use time_time cb u)).
  destruct u as [func w|]; [|discriminate].
  rewrite apply_use_not_open by exact Hs.
  unfold other_failure in Hu. destruct (fst (func w)) as [a|e]; [discriminate|].
  apply negb_true_iff in Hu. rewrite Hu. exact IH.
Qed.

(** X21. In every state a breaker with [failure_threshold >= 1] can reach
    from its creation, the count and the state agree: the count is never
    negative, it is below the threshold exactly when the breaker is
    closed, and a breaker that is not closed has the time of a failure.
    The constructor arguments never change. *)
Theorem reachable_breaker_consistent :
  forall (threshold : Z) (timeout : Q) (expected : list cls)
         (uses : list (use W R)),
    1 <= threshold ->
    let cb := after time_time uses (init threshold timeout expected) in
    consistent cb /\
    (state cb = closed <-> failure_count cb < threshold) /\
    configuration cb = (threshold, timeout, expected).
Proof.
  intros threshold timeout expected uses Hthr cb.
  assert (Hcfg : configuration cb = (threshold, timeout, expected)).
  { subst cb. now rewrite after_configuration. }
  assert (Hinv : forall (us : list (use W R)) c,
             failure_threshold c = threshold -> consistent c ->
             consistent (after time_time us c)).
  { induction us as [|u us IH]; intros c Hc Hcons; [exact Hcons|].
    change (after time_time (u :: us) c)
      with (after time_time us (apply_use time_time c u)).
    apply IH.
    - pose proof (apply_use_configuration c u) as H.
      unfold configuration in H. injection H as H _ _. congruence.
    - apply apply_use_consistent; [lia | exact Hcons]. }
  assert (Hcons : consistent cb).
  { apply Hinv; [reflexivity|]. unfold consistent. simpl.
    repeat split; try lia; congruence. }
  split; [exact Hcons|]. split; [|exact Hcfg].
  unfold configuration in Hcfg. injection Hcfg as Hc _ _.
  destruct Hcons as (_ & Hclosed & Hother). rewrite <- Hc. split; [exact Hclosed|].
  intros Hlt. destruct (state cb) eqn:E; [reflexivity| |];
    (destruct Hother as [Hge _]; [congruence | lia]).
Qed.

(** X22. A manual reset brings a breaker, however it was used, back to
    the state it was created in. *)
Theorem reset_restores_creation :
  forall (threshold : Z) (timeout : Q) (expected : list cls)
         (uses : list (use W R)),
    after time_time (uses ++ [Reset W R]) (init threshold timeout expected)
    = init threshold timeout expected.
Proof.
  intros threshold timeout expected uses. rewrite after_app.
  pose proof (after_configuration uses (init threshold timeout expected)) as H.
  change (after time_time [Reset W R]
            (after time_time uses (init threshold timeout expected)))
    with (reset (after time_time uses (init threshold timeout expected))).
  set (cb := after time_time uses (init threshold timeout expected)) in *.
  unfold configuration in H. simpl in H. injection H as H1 H2 H3.
  unfold reset, with_last_failure_time, with_failure_count, with_state, init.
  simpl. rewrite H1, H2, H3. reflexivity.
Qed.
End Breaker.

Local Open Scope Q_scope.

Lemma breaker_trips_at_threshold_witness :
  let cb := after (fun w : Q => w)
              [Call failing 98; Call failing 99; Call failing 100]
              (init 3 60 [Exception]) in
  state cb = open /\ failure_count cb = 3%Z /\ last_failure_time cb = Some 100.
Proof.
  destruct (@breaker_trips_at_threshold Q Z (fun w : Q => w)
              (init 3 60 [Exception]) [Call failing 98; Call failing 99]
              failing 100) as (_ & _ & H1 & H2 & H3).
  - reflexivity.
  - repeat constructor.
  - reflexivity.
  - split; [exact H1|]. split; [exact H2 | exact H3].
Defined.

Lemma success_restarts_count_witness :
  let cb := after (fun w : Q => w)
              [Call returning 10; Call failing 11; Call failing 12]
              (after (fun w : Q => w) [Call failing 8; Call failing 9]
                     (init 3 60 [Exception])) in
  state cb = closed /\ failure_count cb = 2%Z.
Proof.
  apply (@success_restarts_count Q Z (fun w : Q => w)
           (after (fun w : Q => w) [Call failing 8; Call failing 9]
                  (init 3 60 [Exception]))
           (Call returning 10) [Call failing 11; Call failing 12]).
  - discriminate.
  - reflexivity.
  - repeat constructor.
  - reflexivity.
Defined.

Lemma other_failures_leave_breaker_witness :
  after (fun w : Q => w) [Call failing 1; Call failing 2; Call failing 3]
        (init 1 60 [ValueError])
  = init 1 60 [ValueError].
Proof.
  apply (@other_failures_leave_breaker Q Z (fun w : Q => w)
           (init 1 60 [ValueError])
           [Call failing 1; Call failing 2; Call failing 3]).
  - discriminate.
  - repeat constructor.
Defined.

Lemma reachable_breaker_consistent_witness :
  let cb := after (fun w : Q => w)
              [Call failing 98; Call failing 99; Call failing 100;
               Call returning 170]
              (init 3 60 [Exception]) in
  consistent cb /\
  (state cb = closed <-> (failure_count cb < 3)%Z) /\
  configuration cb = (3%Z, 60, [Exception]).
Proof.
  apply (@reachable_breaker_consistent Q Z (fun w : Q => w) 3 60 [Exception]
           [Call failing 98; Call failing 99; Call failing 100;
            Call returning 170]).
  lia.
Defined.
End CircuitBreakerExtra.
